(** * pixel-feed: a shallow embedding of [main.js]

    The script has two halves.  The first wires a [MediaRecorder] to two
    buttons and a download link; the second samples the camera frame on a
    small off-screen canvas and redraws it on the main canvas as a grid of
    gray discs.

    JavaScript numbers are IEEE-754 binary64 values.  They are modelled with
    the executable specification of the Standard Library ([SpecFloat], at
    precision 53 and maximal exponent 1024), so every arithmetic step of the
    script is the rounded operation the engine performs.  Loop counters and
    array indices are whole numbers far below 2^53 and are kept in [Z].

    Calls into the platform (canvas context, recorder, DOM) are not code of
    the script.  The canvas calls are recorded as a trace of operations; the
    recorder and the DOM setters follow the documented behaviour of the
    platform, and each such choice is stated where it is made. *)

From Stdlib Require Import ZArith QArith Qabs Qround Qpower List Bool Lia String.
From Stdlib Require Import SpecFloat.
Import ListNotations.

Local Open Scope Z_scope.

(* ================================================================= *)
(** ** JavaScript numbers *)

Module JSNumber.

Definition prec : Z := 53.
Definition emax : Z := 1024.

Definition number : Type := spec_float.

Definition NaN : number := S754_nan.

Definition add : number -> number -> number := SFadd prec emax.
Definition sub : number -> number -> number := SFsub prec emax.
Definition mul : number -> number -> number := SFmul prec emax.
Definition div : number -> number -> number := SFdiv prec emax.

(** The number denoted by an integer literal or held by an integer-valued
    DOM attribute (round to nearest even; exact below 2^53). *)
Definition of_Z (n : Z) : number := binary_normalize prec emax n 0 false.

Definition is_nan (x : number) : bool :=
  match x with S754_nan => true | _ => false end.

(** [is_finite x]: [x] is neither [NaN] nor an infinity. *)
Definition is_finite (x : number) : bool :=
  match x with
  | S754_zero _ | S754_finite _ _ _ => true
  | _ => false
  end.

(** [x] is one of the binary64 values (mantissa and exponent in range). *)
Definition is_double (x : number) : bool := valid_binary prec emax x.

(** The rational number a finite value stands for (0 for the others). *)
Definition value (x : number) : Q :=
  match x with
  | S754_finite s m e => (inject_Z (cond_Zopp s (Zpos m)) * Qpower 2 e)%Q
  | _ => 0%Q
  end.

(** The relational operator [<=] of the language. *)
Definition leb : number -> number -> bool := SFleb.

(** [Math.min] and [Math.max] of two arguments: [NaN] if either argument
    is [NaN]; [-0] counts as smaller than [+0]. *)
Definition Math_min (x y : number) : number :=
  match SFcompare x y with
  | None => NaN
  | Some Lt => x
  | Some Gt => y
  | Some Eq => match x with S754_zero false => y | _ => x end
  end.

Definition Math_max (x y : number) : number :=
  match SFcompare x y with
  | None => NaN
  | Some Lt => y
  | Some Gt => x
  | Some Eq => match x with S754_zero true => y | _ => x end
  end.

(** The integer [floor (m * 2^e)] for a signed mantissa [m]. *)
Definition floor_scaled (m e : Z) : Z :=
  if 0 <=? e then Z.shiftl m e else Z.shiftr m (- e).

(** [Math.floor]: zeros, infinities and [NaN] are returned unchanged. *)
Definition Math_floor (x : number) : number :=
  match x with
  | S754_finite s m e =>
      if 0 <=? e then x
      else binary_normalize prec emax
             (floor_scaled (cond_Zopp s (Zpos m)) e) 0 s
  | _ => x
  end.

(** Conversion of a number to a Web IDL [unsigned long]: [NaN], zeros and
    infinities give 0, other values are truncated towards zero and reduced
    modulo 2^32. *)
Definition to_unsigned_long (x : number) : Z :=
  match x with
  | S754_finite s m e =>
      (cond_Zopp s (floor_scaled (Zpos m) e)) mod 2 ^ 32
  | _ => 0
  end.

(** The float built from a rounded mantissa and its exponent: the last
    step of the rounding function [binary_round_aux]. *)
Definition pack (s : bool) (m e : Z) : number :=
  match m with
  | Z0 => S754_zero s
  | Zpos p => if e <=? emax - prec then S754_finite s p e else S754_infinity s
  | Zneg _ => S754_nan
  end.

(** The binary64 representation of a whole number [0 < n < 2^53] with
    sign [s]: a 53-digit mantissa and the matching exponent. *)
Definition integer_double (s : bool) (n : Z) : number :=
  S754_finite s (Z.to_pos (n * 2 ^ (53 - Zdigits2 n))) (Zdigits2 n - 53).

(** [Math.PI], the binary64 value 0x400921FB54442D18. *)
Definition Math_PI : number := S754_finite false 7074237752028440 (-51).

(** The binary64 number [b / 2^j] for a whole number [0 < b < 2^53]: the
    mantissa of [b] with its exponent lowered by [j].  So [dyadic 3 0] is
    3, [dyadic 5 1] is 2.5 and [dyadic 1 1] is 0.5. *)
Definition dyadic (b j : Z) : number :=
  match of_Z b with
  | S754_finite s m e => S754_finite s m (e - j)
  | x => x
  end.

(** The literal [0.1]: the binary64 value 0x3FB999999999999A, a little
    above one tenth. *)
Definition tenth : number := S754_finite false 7205759403792794 (-56).

End JSNumber.

Import JSNumber.

(* ================================================================= *)
(** ** The pixelation pipeline (lines 80-197) *)

Module Pixelate.

(** The three module-level settings (lines 9-14). *)
Record Config := {
  pixelSize : number;
  gapSize : number;
  contrast : number
}.

Definition default_config : Config :=
  {| pixelSize := of_Z 3; gapSize := of_Z 3; contrast := of_Z 2 |}.

(** A canvas element, as far as the script reads it: its two dimension
    attributes, which the platform keeps in the range 0 .. 2^31-1. *)
Record Canvas := { width : Z; height : Z }.

Definition max_dimension : Z := 2147483647.

(** Assignment of a number to [canvas.width] or [canvas.height]: the value
    is converted to [unsigned long]; a result above 2^31-1 is replaced by
    the attribute's default (300 for the width, 150 for the height). *)
Definition set_dimension (default : Z) (v : number) : Z :=
  let n := to_unsigned_long v in
  if n <=? max_dimension then n else default.

(** The two drawing surfaces of the script. *)
Inductive surface := MainContext | SmallContext.

(** Fill styles the script assigns: the template literal of line 153 with
    its four interpolated components. *)
Inductive style := rgba (r g b a : number).

(** Calls made on a 2D context, in the order the script makes them. *)
Inductive op :=
| DrawImage (x y w h : Z)
| ClearRect (x y w h : Z)
| SetFillStyle (c : style)
| BeginPath
| Arc (cx cy radius startAngle endAngle : number)
| ClosePath
| Fill.

Definition trace : Type := list (surface * op).

(** How a call of [applyPixelatedFilter] ends: it returns after the calls
    of the trace, an exception leaves it after them, or the loop model
    was given too little fuel (which never happens, see
    [drawPixelatedImage_total]). *)
Inductive outcome :=
| Returned (t : trace)
| Threw (t : trace)
| OutOfFuel.

Section WithConfig.

Variable cfg : Config.
(** The main canvas (line 3). *)
Variable canvas : Canvas.

(** Lines 84-97. *)
Definition createSmallCanvas : Canvas :=
  let effectiveWidth := div (of_Z (width canvas)) (add (pixelSize cfg) (gapSize cfg)) in
  let effectiveHeight := div (of_Z (height canvas)) (add (pixelSize cfg) (gapSize cfg)) in
  {| width := set_dimension 300 (Math_floor effectiveWidth);
     height := set_dimension 150 (Math_floor effectiveHeight) |}.

(** Lines 101-104. *)
Definition drawVideoOnSmallCanvas (smallCanvas : Canvas) : trace :=
  [(SmallContext, DrawImage 0 0 (width smallCanvas) (height smallCanvas))].

(** Lines 113-115. *)
Definition clearMainCanvas : trace :=
  [(MainContext, ClearRect 0 0 (width canvas) (height canvas))].

(** Lines 118-120. *)
Definition convertToGrayscale (r g b : number) : number :=
  div (add (add r g) b) (of_Z 3).

(** Lines 123-127. *)
Definition adjustContrast (grayscale : number) : number :=
  let grayscale := add (of_Z 128) (mul (sub grayscale (of_Z 128)) (contrast cfg)) in
  Math_max (of_Z 0) (Math_min (of_Z 255) grayscale).

(** Lines 130-135. *)
Definition drawCircle (ctx : surface) (centerX centerY radius : number) : trace :=
  [(ctx, BeginPath);
   (ctx, Arc centerX centerY radius (of_Z 0) (mul Math_PI (of_Z 2)));
   (ctx, ClosePath);
   (ctx, Fill)].

(** Reading [data[index]] from the [Uint8ClampedArray] of the image data:
    an element is a byte; outside the array the read gives [undefined],
    which the additions of [convertToGrayscale] turn into [NaN]. *)
Definition read (data : list Z) (index : Z) : number :=
  if index <? 0 then NaN
  else match nth_error data (Z.to_nat index) with
       | Some v => of_Z v
       | None => NaN
       end.

(** The body of the inner loop, lines 143-161. *)
Definition drawSample (data : list Z) (smallCanvas : Canvas) (x y : Z) : trace :=
  let index := (y * width smallCanvas + x) * 4 in
  let r := read data index in
  let g := read data (index + 1) in
  let b := read data (index + 2) in
  let grayscale := convertToGrayscale r g b in
  let grayscale := adjustContrast grayscale in
  (MainContext, SetFillStyle (rgba grayscale grayscale grayscale (of_Z 1)))
    :: drawCircle MainContext
         (mul (of_Z x) (add (pixelSize cfg) (gapSize cfg)))
         (mul (of_Z y) (add (pixelSize cfg) (gapSize cfg)))
         (div (pixelSize cfg) (of_Z 2)).

(** The inner loop, line 142.  [fuel] bounds the number of iterations
    still allowed; the loop is entered with [x = 0] and runs while
    [x < smallCanvas.width]. *)
Fixpoint loop_x (fuel : nat) (data : list Z) (smallCanvas : Canvas) (y x : Z) : option trace :=
  if x <? width smallCanvas then
    match fuel with
    | O => None
    | S fuel' =>
        match loop_x fuel' data smallCanvas y (x + 1) with
        | Some t => Some (drawSample data smallCanvas x y ++ t)
        | None => None
        end
    end
  else Some [].

(** The outer loop, line 141. *)
Fixpoint loop_y (fuel : nat) (data : list Z) (smallCanvas : Canvas) (y : Z) : option trace :=
  if y <? height smallCanvas then
    match fuel with
    | O => None
    | S fuel' =>
        match loop_x (Z.to_nat (width smallCanvas)) data smallCanvas y 0 with
        | Some row =>
            match loop_y fuel' data smallCanvas (y + 1) with
            | Some t => Some (row ++ t)
            | None => None
            end
        | None => None
        end
    end
  else Some [].

(** Lines 139-164. *)
Definition drawPixelatedImage (data : list Z) (smallCanvas : Canvas) : option trace :=
  loop_y (Z.to_nat (height smallCanvas)) data smallCanvas 0.

(** Lines 107-110.  The platform supplies the pixels: [frame w h] is the
    RGBA byte array it returns for a [w] by [h] read-back of the small
    canvas.  [getImageData] throws [IndexSizeError] when either
    dimension is 0. *)
Definition getImageData (frame : Z -> Z -> list Z) (smallCanvas : Canvas) : option (list Z) :=
  if (width smallCanvas =? 0) || (height smallCanvas =? 0) then None
  else Some (frame (width smallCanvas) (height smallCanvas)).

(** Lines 167-180. *)
Definition applyPixelatedFilter (frame : Z -> Z -> list Z) : outcome :=
  let smallCanvas := createSmallCanvas in
  let t1 := drawVideoOnSmallCanvas smallCanvas in
  match getImageData frame smallCanvas with
  | None => Threw t1
  | Some data =>
      match drawPixelatedImage data smallCanvas with
      | Some t3 => Returned (t1 ++ clearMainCanvas ++ t3)
      | None => OutOfFuel
      end
  end.

End WithConfig.

(** *** The renderer as the specification words it *)

(** [range lo n] is [lo; lo+1; ...], [n] numbers. *)
Fixpoint range (lo : Z) (n : nat) : list Z :=
  match n with
  | O => []
  | S n' => lo :: range (lo + 1) n'
  end.

(** Grid coordinates [(x, y)] in row-major order: [y] outer, [x] inner. *)
Definition positions (w h : Z) : list (Z * Z) :=
  flat_map (fun y => map (fun x => (x, y)) (range 0 (Z.to_nat w)))
           (range 0 (Z.to_nat h)).

(** Grayscale [(r+g+b)/3], then [128 + (grayscale-128) * contrastFactor]
    clamped to [[0,255]]. *)
Definition gray_level (cfg : Config) (r g b : number) : number :=
  let grayscale := div (add (add r g) b) (of_Z 3) in
  Math_max (of_Z 0)
    (Math_min (of_Z 255)
       (add (of_Z 128) (mul (sub grayscale (of_Z 128)) (contrast cfg)))).

(** The sample at [(x, y)] of a raster [w] samples wide: fill colour set
    to its gray level with full opacity, then a filled circle centred at
    [(x*(pixelSize+gapSize), y*(pixelSize+gapSize))] of radius
    [pixelSize/2]. *)
Definition disc (cfg : Config) (data : list Z) (w x y : Z) : trace :=
  let i := (y * w + x) * 4 in
  let v := gray_level cfg (read data i) (read data (i + 1)) (read data (i + 2)) in
  [(MainContext, SetFillStyle (rgba v v v (of_Z 1)));
   (MainContext, BeginPath);
   (MainContext, Arc (mul (of_Z x) (add (pixelSize cfg) (gapSize cfg)))
                     (mul (of_Z y) (add (pixelSize cfg) (gapSize cfg)))
                     (div (pixelSize cfg) (of_Z 2))
                     (of_Z 0) (mul Math_PI (of_Z 2)));
   (MainContext, ClosePath);
   (MainContext, Fill)].

Definition rendering (cfg : Config) (data : list Z) (w h : Z) : trace :=
  flat_map (fun xy => disc cfg data w (fst xy) (snd xy)) (positions w h).

(** The fill colours a trace assigns, in order. *)
Definition fill_styles (t : trace) : list style :=
  flat_map (fun so => match snd so with SetFillStyle c => [c] | _ => [] end) t.


(** The raster of lines 84-97 read over exact division: for every canvas
    and all sizes whose sum is positive, [floor (W / (p+g))] wide and
    [floor (H / (p+g))] high, with [p] and [g] the numbers the two
    settings hold. *)
Definition raster_exact : Prop :=
  forall (cfg : Config) (canvas : Canvas),
    0 <= width canvas <= max_dimension ->
    0 <= height canvas <= max_dimension ->
    is_double (pixelSize cfg) = true -> is_double (gapSize cfg) = true ->
    (0 < value (pixelSize cfg) + value (gapSize cfg))%Q ->
    createSmallCanvas cfg canvas
    = {| width :=
           Qfloor (inject_Z (width canvas)
                   / (value (pixelSize cfg) + value (gapSize cfg)));
         height :=
           Qfloor (inject_Z (height canvas)
                   / (value (pixelSize cfg) + value (gapSize cfg))) |}.

(** The reading of "exactly" under which the grayscale of three bytes is
    the rational number [(r+g+b)/3]. *)
Definition grayscale_exact : Prop :=
  forall r g b,
    0 <= r <= 255 -> 0 <= g <= 255 -> 0 <= b <= 255 ->
    (value (convertToGrayscale (of_Z r) (of_Z g) (of_Z b)) ==
     inject_Z (r + g + b) / 3)%Q.

(** What holds of the grayscale of a byte sum [s] instead: within 2^-46
    of [s/3], and equal to it when 3 divides [s]. *)
Definition grayscale_close (s : Z) : bool :=
  let v := value (div (of_Z s) (of_Z 3)) in
  Qle_bool (Qabs (v - inject_Z s / 3)) (1 # 2 ^ 46) &&
  (if s mod 3 =? 0 then Qeq_bool v (inject_Z s / 3) else true).

(** One frame of the conductor, lines 184-192: the main canvas is sized
    640 by 480 and the filter applied. *)
Definition drawToCanvas (cfg : Config) (frame : Z -> Z -> list Z) : outcome :=
  applyPixelatedFilter cfg {| width := 640; height := 480 |} frame.

(** *** Observations on traces and buffers *)

(** The centres of the arcs a trace draws, in order. *)
Definition centres (t : trace) : list (number * number) :=
  flat_map (fun so => match snd so with
                      | Arc cx cy _ _ _ => [(cx, cy)]
                      | _ => []
                      end) t.

(** The surface a call is made on is the main canvas, and the call is one
    the sample loop makes: never a clear, never a copy of the video. *)
Definition sample_call (so : surface * op) : bool :=
  match so with
  | (MainContext, (SetFillStyle _ | BeginPath | Arc _ _ _ _ _ | ClosePath | Fill)) => true
  | _ => false
  end.

(** A buffer whose elements are bytes. *)
Definition bytes (data : list Z) : Prop := Forall (fun v => 0 <= v <= 255) data.

(** Two buffers that agree everywhere but, possibly, on their alpha bytes
    (the elements numbered 3, 7, 11, ...). *)
Definition same_colours (d1 d2 : list Z) : Prop :=
  forall n : nat, (n mod 4 <> 3)%nat -> nth_error d1 n = nth_error d2 n.

(** Structural equality of numbers, as a test. *)
Definition same (x y : number) : bool :=
  match x, y with
  | S754_zero a, S754_zero b => Bool.eqb a b
  | S754_infinity a, S754_infinity b => Bool.eqb a b
  | S754_nan, S754_nan => true
  | S754_finite a m e, S754_finite b n f => Bool.eqb a b && Pos.eqb m n && Z.eqb e f
  | _, _ => false
  end.

(** The gray level the settings of lines 9-14 give to a sample whose three
    bytes sum to [s]. *)
Definition default_gray (s : Z) : number :=
  adjustContrast default_config (div (of_Z s) (of_Z 3)).

(** Tests run over the 766 possible byte sums. *)
Definition grayscale_in_range (s : Z) : bool :=
  let v := div (of_Z s) (of_Z 3) in
  is_double v && leb (of_Z 0) v && leb v (of_Z 255).

Definition saturation (s : Z) : bool :=
  if s <=? 192 then same (default_gray s) (of_Z 0)
  else if 575 <=? s then same (default_gray s) (of_Z 255)
  else negb (leb (default_gray s) (of_Z 0)) && negb (leb (of_Z 255) (default_gray s)).

Definition gray_step (s : Z) : bool :=
  Qle_bool (value (default_gray s)) (value (default_gray (s + 1))).

(** The animation loop, lines 184-197: each display refresh runs
    [drawToCanvas] on the frame the camera shows then; the next refresh is
    requested only when the filter returned.  The result is the calls made
    and the number of frames drawn. *)
Fixpoint animate (cfg : Config) (frames : list (Z -> Z -> list Z)) : trace * nat :=
  match frames with
  | [] => ([], O)
  | frame :: later =>
      match drawToCanvas cfg frame with
      | Returned t => let '(t', n) := animate cfg later in (t ++ t', S n)
      | Threw t => (t, O)
      | OutOfFuel => ([], O)
      end
  end.

End Pixelate.

(* ================================================================= *)
(** ** Recording (lines 17-78) *)

Module Recording.

(** A [Blob] is its bytes; [size] is their number. *)
Definition Blob : Type := list Byte.byte.

Definition size (b : Blob) : Z := Z.of_nat (List.length b).

(** [new Blob(parts)]: the parts, concatenated. *)
Definition new_Blob (parts : list Blob) : Blob := List.concat parts.

(** [MediaRecorder.state].  The script never pauses the recorder. *)
Inductive RecordingState := inactive | recording.

(** The recorder object: its state, and the number of tasks its [stop]
    method has queued and the event loop has not run yet. *)
Record MediaRecorder := {
  state : RecordingState;
  pending_stops : nat
}.

(** [recorder.start()]: throws [InvalidStateError] ([None]) unless the
    recorder is inactive. *)
Definition MediaRecorder_start (r : MediaRecorder) : option MediaRecorder :=
  match state r with
  | inactive => Some {| state := recording; pending_stops := pending_stops r |}
  | recording => None
  end.

(** [recorder.stop()]: nothing when inactive; otherwise the recorder
    becomes inactive and a task is queued that fires [dataavailable] with
    the data gathered and then [stop]. *)
Definition MediaRecorder_stop (r : MediaRecorder) : MediaRecorder :=
  match state r with
  | inactive => r
  | recording => {| state := inactive; pending_stops := S (pending_stops r) |}
  end.

(** [URL.createObjectURL(blob)]: a URL that designates the blob. *)
Inductive URL := createObjectURL (blob : Blob).

(** The anchor element [downloadLink]: the attributes the script sets;
    [None] stands for an attribute the script has not set. *)
Record Link := {
  href : option URL;
  download : option string;
  display : option string
}.

(** The state the handlers share: the two module-level variables of lines
    20-21 and the three DOM elements. *)
Record State := {
  mediaRecorder : option MediaRecorder;
  recordedChunks : list Blob;
  recordButton_disabled : bool;
  stopButton_disabled : bool;
  downloadLink : Link
}.

(** The state when the script has run: no recorder yet, no chunks; the
    buttons and the link are as the page declares them. *)
Definition initial (record_disabled stop_disabled : bool) (link : Link) : State :=
  {| mediaRecorder := None;
     recordedChunks := [];
     recordButton_disabled := record_disabled;
     stopButton_disabled := stop_disabled;
     downloadLink := link |}.

(** Lines 30-40: the camera was granted; the recorder is created. *)
Definition onGranted (s : State) : State :=
  {| mediaRecorder := Some {| state := inactive; pending_stops := 0 |};
     recordedChunks := recordedChunks s;
     recordButton_disabled := recordButton_disabled s;
     stopButton_disabled := stopButton_disabled s;
     downloadLink := downloadLink s |}.

(** Lines 57-59: the camera was refused; the error is logged. *)
Definition onDenied (s : State) : State := s.

(** Lines 42-46. *)
Definition ondataavailable (data : Blob) (s : State) : State :=
  if 0 <? size data then
    {| mediaRecorder := mediaRecorder s;
       recordedChunks := recordedChunks s ++ [data];
       recordButton_disabled := recordButton_disabled s;
       stopButton_disabled := stopButton_disabled s;
       downloadLink := downloadLink s |}
  else s.

(** Lines 49-55. *)
Definition onstop (s : State) : State :=
  let blob := new_Blob (recordedChunks s) in
  let url := createObjectURL blob in
  {| mediaRecorder := mediaRecorder s;
     recordedChunks := recordedChunks s;
     recordButton_disabled := recordButton_disabled s;
     stopButton_disabled := stopButton_disabled s;
     downloadLink := {| href := Some url;
                        download := Some "pixelated-recording.webm"%string;
                        display := Some "block"%string |} |}.

(** Lines 62-69.  When [start] throws, the statements after it are not
    executed; the assignment before it is. *)
Definition recordButton_click (s : State) : State :=
  match mediaRecorder s with
  | Some r =>
      match MediaRecorder_start r with
      | Some r' =>
          {| mediaRecorder := Some r';
             recordedChunks := [];
             recordButton_disabled := true;
             stopButton_disabled := false;
             downloadLink := downloadLink s |}
      | None =>
          {| mediaRecorder := Some r;
             recordedChunks := [];
             recordButton_disabled := recordButton_disabled s;
             stopButton_disabled := stopButton_disabled s;
             downloadLink := downloadLink s |}
      end
  | None => s
  end.

(** Lines 72-78. *)
Definition stopButton_click (s : State) : State :=
  match mediaRecorder s with
  | Some r =>
      {| mediaRecorder := Some (MediaRecorder_stop r);
         recordedChunks := recordedChunks s;
         recordButton_disabled := false;
         stopButton_disabled := true;
         downloadLink := downloadLink s |}
  | None => s
  end.

(** What the event loop can deliver. *)
Inductive event :=
| Granted                      (* the promise of line 29 is fulfilled *)
| Denied                       (* the promise of line 29 is rejected *)
| RecordClick                  (* click on the record button: start *)
| StopClick                    (* click on the stop button: stop *)
| DataAvailable (data : Blob)  (* [dataavailable] while recording *)
| StopTask (data : Blob).      (* a task queued by [stop()] runs *)

Definition take_pending (r : MediaRecorder) : option MediaRecorder :=
  match pending_stops r with
  | O => None
  | S n => Some {| state := state r; pending_stops := n |}
  end.

Definition with_recorder (r : MediaRecorder) (s : State) : State :=
  {| mediaRecorder := Some r;
     recordedChunks := recordedChunks s;
     recordButton_disabled := recordButton_disabled s;
     stopButton_disabled := stopButton_disabled s;
     downloadLink := downloadLink s |}.

(** One turn of the event loop; [None] when the platform cannot deliver
    the event in that state.  The promise settles before a recorder
    exists; [dataavailable] is fired at a recorder that is recording; a
    queued stop task fires [dataavailable] and then [stop].  Clicks are
    accepted in every state. *)
Definition step (s : State) (ev : event) : option State :=
  match ev with
  | Granted =>
      match mediaRecorder s with
      | None => Some (onGranted s)
      | Some _ => None
      end
  | Denied =>
      match mediaRecorder s with
      | None => Some (onDenied s)
      | Some _ => None
      end
  | RecordClick => Some (recordButton_click s)
  | StopClick => Some (stopButton_click s)
  | DataAvailable data =>
      match mediaRecorder s with
      | Some r =>
          match state r with
          | recording => Some (ondataavailable data s)
          | inactive => None
          end
      | None => None
      end
  | StopTask data =>
      match mediaRecorder s with
      | Some r =>
          match take_pending r with
          | Some r' => Some (onstop (ondataavailable data (with_recorder r' s)))
          | None => None
          end
      | None => None
      end
  end.

Fixpoint run (s : State) (evs : list event) : option State :=
  match evs with
  | [] => Some s
  | ev :: evs' =>
      match step s ev with
      | Some s' => run s' evs'
      | None => None
      end
  end.

(** The states the page can be in. *)
Definition reachable (s : State) : Prop :=
  exists rd sd link evs, run (initial rd sd link) evs = Some s.

(** *** Invariants of the event loop *)

(** While the recorder records, the buttons are as the last start left
    them. *)
Definition buttons_follow_recorder (s : State) : Prop :=
  forall r, mediaRecorder s = Some r -> state r = recording ->
            recordButton_disabled s = true /\ stopButton_disabled s = false.

(** Every stored chunk is non-empty. *)
Definition chunks_positive (s : State) : Prop :=
  Forall (fun b => 0 < size b) (recordedChunks s).



(** Delivery of a batch of [dataavailable] events. *)
Definition deliver (chunks : list Blob) (s : State) : State :=
  fold_left (fun s data => ondataavailable data s) chunks s.

Definition no_link : Link := {| href := None; download := None; display := None |}.

(** *** Sessions *)

Definition nonempty (b : Blob) : bool := 0 <? size b.

(** One recording: a click on record, the data delivered while recording,
    a click on stop, and the queued task with the last of the data. *)
Definition session (during : list Blob) (last : Blob) : list event :=
  RecordClick :: map DataAvailable during ++ [StopClick; StopTask last].

(** A recorder exists, is inactive and has no stop task pending. *)
Definition idle (s : State) : Prop :=
  exists r, mediaRecorder s = Some r /\ state r = inactive /\ pending_stops r = 0%nat.

(** Exactly one of the two buttons is enabled. *)
Definition one_enabled (s : State) : Prop :=
  xorb (recordButton_disabled s) (stopButton_disabled s) = true.

Definition total_size (chunks : list Blob) : Z :=
  fold_right Z.add 0 (map size chunks).

End Recording.

(* ================================================================= *)
(** ** Properties of binary64 arithmetic *)

Module NumberFacts.


(** *** Binary digits *)

Lemma digits2_pos_size p : digits2_pos p = Pos.size p.
Proof. induction p; simpl; congruence. Qed.

Lemma digits2_pos_bounds p :
  2 ^ (Zpos (digits2_pos p) - 1) <= Zpos p < 2 ^ Zpos (digits2_pos p).
Proof.
  induction p as [p IH|p IH|]; simpl digits2_pos.
  - rewrite Pos2Z.inj_succ.
    replace (Z.succ (Zpos (digits2_pos p)) - 1) with (Zpos (digits2_pos p) - 1 + 1) by lia.
    rewrite Z.pow_succ_r, Z.pow_add_r by lia.
    lia.
  - rewrite Pos2Z.inj_succ.
    replace (Z.succ (Zpos (digits2_pos p)) - 1) with (Zpos (digits2_pos p) - 1 + 1) by lia.
    rewrite Z.pow_succ_r, Z.pow_add_r by lia.
    lia.
  - simpl. lia.
Qed.

Lemma Zdigits2_nonneg m : 0 <= Zdigits2 m.
Proof. destruct m; simpl; lia. Qed.

(** For a positive [m], [Zdigits2 m] is the [d] with [2^(d-1) <= m < 2^d]. *)
Lemma Zdigits2_unique m d :
  0 < d -> 2 ^ (d - 1) <= m < 2 ^ d -> Zdigits2 m = d.
Proof.
  intros Hd [Hlo Hhi].
  assert (0 < m) by (pose proof (Z.pow_pos_nonneg 2 (d - 1)); lia).
  destruct m as [|p|p]; try lia. simpl.
  pose proof (digits2_pos_bounds p) as [Hl Hh].
  set (k := Zpos (digits2_pos p)) in *.
  assert (Hk : 0 < k) by (unfold k; lia).
  destruct (Z.lt_trichotomy k d) as [Hlt|[Heq|Hgt]]; auto.
  - assert (2 ^ k <= 2 ^ (d - 1)) by (apply Z.pow_le_mono_r; lia). lia.
  - assert (2 ^ d <= 2 ^ (k - 1)) by (apply Z.pow_le_mono_r; lia). lia.
Qed.

Lemma Zdigits2_le m k :
  0 <= m -> 0 <= k -> m < 2 ^ k -> Zdigits2 m <= k.
Proof.
  intros Hm Hk Hlt. destruct m as [|p|p]; simpl; try lia.
  pose proof (digits2_pos_bounds p) as [Hl _].
  set (d := Zpos (digits2_pos p)) in *.
  destruct (Z.le_gt_cases d k) as [|Hgt]; auto.
  assert (2 ^ k <= 2 ^ (d - 1)) by (apply Z.pow_le_mono_r; lia). lia.
Qed.

Lemma Zdigits2_lt_pow m : 0 <= m -> m < 2 ^ Zdigits2 m.
Proof.
  intros Hm. destruct m as [|p|p]; simpl; try lia.
  apply digits2_pos_bounds.
Qed.

(** *** Shifting right *)

Lemma shr_1_m mrs : 0 <= shr_m mrs -> shr_m (shr_1 mrs) = shr_m mrs / 2.
Proof.
  destruct mrs as [m r s]. simpl. intros Hm.
  rewrite <- Z.div2_div.
  destruct m as [|[]|]; try reflexivity; lia.
Qed.

Lemma pow2_xO p : 2 ^ Zpos p~0 = 2 ^ Zpos p * 2 ^ Zpos p.
Proof. rewrite <- Z.pow_add_r by lia. f_equal. lia. Qed.

Lemma pow2_xI p : 2 ^ Zpos p~1 = 2 * (2 ^ Zpos p * 2 ^ Zpos p).
Proof.
  rewrite <- Z.pow_add_r, <- Z.pow_succ_r by lia. f_equal. lia.
Qed.

Lemma iter_pos_shr_1_m p : forall mrs,
  0 <= shr_m mrs ->
  shr_m (iter_pos shr_1 p mrs) = shr_m mrs / 2 ^ Zpos p.
Proof.
  induction p as [p IH|p IH|]; intros mrs Hm; simpl iter_pos.
  - assert (H1 : 0 <= shr_m (shr_1 mrs))
      by (rewrite shr_1_m by lia; apply Z.div_pos; lia).
    assert (H2 : 0 <= shr_m (iter_pos shr_1 p (shr_1 mrs)))
      by (rewrite IH by lia; apply Z.div_pos; lia).
    rewrite IH, IH, shr_1_m by lia.
    rewrite !Z.div_div by lia.
    rewrite pow2_xI. f_equal; ring.
  - assert (H2 : 0 <= shr_m (iter_pos shr_1 p mrs))
      by (rewrite IH by lia; apply Z.div_pos; lia).
    rewrite IH, IH by lia.
    rewrite !Z.div_div by lia.
    rewrite pow2_xO. f_equal; ring.
  - rewrite shr_1_m by lia. reflexivity.
Qed.

Lemma shr_record_of_loc_m m l : shr_m (shr_record_of_loc m l) = m.
Proof. destruct l as [|[]]; reflexivity. Qed.

(** [shr_fexp] divides the mantissa by a power of two and moves the
    exponent accordingly. *)
Lemma shr_fexp_spec m e l :
  0 <= m ->
  let n := fexp prec emax (Zdigits2 m + e) - e in
  shr_fexp prec emax m e l =
    (fst (shr_fexp prec emax m e l), e + Z.max 0 n) /\
  shr_m (fst (shr_fexp prec emax m e l)) = m / 2 ^ Z.max 0 n.
Proof.
  intros Hm n. unfold shr_fexp, shr. fold n.
  destruct n as [|p|p]; simpl fst.
  - rewrite shr_record_of_loc_m, Z.add_0_r. simpl. rewrite Z.div_1_r. auto.
  - rewrite iter_pos_shr_1_m by (rewrite shr_record_of_loc_m; lia).
    rewrite shr_record_of_loc_m. rewrite Z.max_r by lia. auto.
  - rewrite shr_record_of_loc_m, Z.max_l by lia.
    rewrite Z.add_0_r. simpl. rewrite Z.div_1_r. auto.
Qed.

Lemma round_nearest_even_bounds m l :
  m <= round_nearest_even m l <= m + 1.
Proof.
  unfold round_nearest_even. destruct l as [|[]]; try lia.
  destruct (Z.even m); lia.
Qed.

(** *** Rounding *)

(** [binary_round_aux] shifts, rounds the mantissa to nearest even, and
    shifts once more when rounding carried into a new digit. *)
Lemma binary_round_aux_spec s m e l :
  0 <= m ->
  let n1 := Z.max 0 (fexp prec emax (Zdigits2 m + e) - e) in
  let e1 := e + n1 in
  let m1 := m / 2 ^ n1 in
  let l1 := loc_of_shr_record (fst (shr_fexp prec emax m e l)) in
  let m2 := round_nearest_even m1 l1 in
  let n2 := Z.max 0 (fexp prec emax (Zdigits2 m2 + e1) - e1) in
  binary_round_aux prec emax s m e l = pack s (m2 / 2 ^ n2) (e1 + n2).
Proof.
  intros Hm n1 e1 m1 l1 m2 n2.
  destruct (shr_fexp_spec m e l Hm) as [E1 E2].
  assert (Hm1 : 0 <= m1) by (apply Z.div_pos; [lia | apply Z.pow_pos_nonneg; lia]).
  assert (Hm2 : 0 <= m2)
    by (pose proof (round_nearest_even_bounds m1 l1); unfold m2; lia).
  unfold binary_round_aux. rewrite E1, E2.
  fold n1 e1 m1 l1 m2.
  destruct (shr_fexp_spec m2 e1 loc_Exact Hm2) as [E3 E4].
  rewrite E3. fold n2. rewrite E4. fold n2. reflexivity.
Qed.

Lemma pack_not_nan s m e : 0 <= m -> is_nan (pack s m e) = false.
Proof.
  intros Hm. unfold pack. destruct m; try lia; auto.
  destruct (e <=? emax - prec); reflexivity.
Qed.

Lemma binary_round_aux_not_nan s m e l :
  0 <= m -> is_nan (binary_round_aux prec emax s m e l) = false.
Proof.
  intros Hm. rewrite binary_round_aux_spec by assumption.
  apply pack_not_nan. apply Z.div_pos.
  - pose proof (round_nearest_even_bounds
                  (m / 2 ^ Z.max 0 (fexp prec emax (Zdigits2 m + e) - e))
                  (loc_of_shr_record (fst (shr_fexp prec emax m e l)))).
    assert (0 <= m / 2 ^ Z.max 0 (fexp prec emax (Zdigits2 m + e) - e))
      by (apply Z.div_pos; [lia | apply Z.pow_pos_nonneg; lia]).
    lia.
  - apply Z.pow_pos_nonneg; lia.
Qed.

Lemma pack_finite s m e :
  0 <= m -> e <= emax - prec -> is_finite (pack s m e) = true.
Proof.
  intros Hm He. unfold pack. destruct m; try lia; auto.
  destruct (Z.leb_spec e (emax - prec)); [reflexivity | lia].
Qed.

Lemma div_pow2_lt m k n :
  0 <= m -> 0 <= n -> 0 <= k -> m < 2 ^ (k + n) -> m / 2 ^ n < 2 ^ k.
Proof.
  intros Hm Hn Hk Hlt. apply Z.div_lt_upper_bound.
  - apply Z.pow_pos_nonneg; lia.
  - rewrite <- Z.pow_add_r by lia. now rewrite Z.add_comm.
Qed.

(** A mantissa whose value stays below [2^(emax-1)] rounds to a finite
    number. *)
Lemma binary_round_aux_finite s m e l :
  0 <= m -> e <= emax - prec -> Zdigits2 m + e <= emax - 1 ->
  is_finite (binary_round_aux prec emax s m e l) = true.
Proof.
  intros Hm He Hd. rewrite binary_round_aux_spec by assumption.
  set (n1 := Z.max 0 (fexp prec emax (Zdigits2 m + e) - e)).
  set (m1 := m / 2 ^ n1).
  set (l1 := loc_of_shr_record (fst (shr_fexp prec emax m e l))).
  set (m2 := round_nearest_even m1 l1).
  set (e1 := e + n1).
  set (n2 := Z.max 0 (fexp prec emax (Zdigits2 m2 + e1) - e1)).
  assert (Hm1 : 0 <= m1) by (apply Z.div_pos; [lia | apply Z.pow_pos_nonneg; lia]).
  pose proof (round_nearest_even_bounds m1 l1) as Hr. fold m2 in Hr.
  pose proof (Zdigits2_nonneg m) as Hdm.
  assert (He1 : e1 <= emax - prec).
  { unfold e1, n1, fexp, emin, emax, prec in *. lia. }
  (* digits of the rounded mantissa *)
  assert (Hd2 : Zdigits2 m2 + e1 <= emax).
  { set (k := emax - e1).
    assert (Hk : 0 <= k - 1) by (unfold k, emax, prec in *; lia).
    assert (Hlt1 : m1 < 2 ^ (k - 1)).
    { unfold m1. apply div_pow2_lt; try lia. 
      apply Z.lt_le_trans with (2 ^ Zdigits2 m).
      - now apply Zdigits2_lt_pow.
      - apply Z.pow_le_mono_r; unfold k, e1; lia. }
    assert (Hlt2 : m2 < 2 ^ k).
    { replace k with (Z.succ (k - 1)) by lia. rewrite Z.pow_succ_r by lia. lia. }
    pose proof (Zdigits2_le m2 k ltac:(lia) ltac:(lia) Hlt2). lia. }
  apply pack_finite.
  - apply Z.div_pos; [lia | apply Z.pow_pos_nonneg; lia].
  - unfold n2, fexp, emin, emax, prec in *. lia.
Qed.

(** *** Alignment and normalisation *)

Lemma Pos_iter_xO m d : Zpos (Pos.iter xO m d) = Zpos m * 2 ^ Zpos d.
Proof.
  induction d as [|d IH] using Pos.peano_ind.
  - simpl. lia.
  - rewrite Pos.iter_succ, Pos2Z.inj_xO, IH, Pos2Z.inj_succ, Z.pow_succ_r by lia.
    ring.
Qed.

Lemma shl_align_spec mx ex ex' :
  snd (shl_align mx ex ex') = Z.min ex ex' /\
  Zpos (fst (shl_align mx ex ex')) = Zpos mx * 2 ^ (ex - Z.min ex ex').
Proof.
  unfold shl_align. destruct (ex' - ex) as [|d|d] eqn:E; simpl.
  - rewrite Z.min_l by lia. rewrite Z.sub_diag. simpl. lia.
  - rewrite Z.min_l by lia. rewrite Z.sub_diag. simpl. lia.
  - rewrite Z.min_r by lia. split; auto.
    rewrite Pos_iter_xO.
    assert (Ed : ex - ex' = Zpos d) by lia. now rewrite Ed.
Qed.

Lemma Zdigits2_mul_pow2 m k :
  0 < m -> 0 <= k -> Zdigits2 (m * 2 ^ k) = Zdigits2 m + k.
Proof.
  intros Hm Hk.
  assert (Hd : 0 < Zdigits2 m) by (destruct m; simpl; lia).
  apply Zdigits2_unique; [lia|].
  destruct m as [|p|p]; try lia. simpl Zdigits2 in *.
  pose proof (digits2_pos_bounds p) as [Hl Hh].
  replace (Zpos (digits2_pos p) + k - 1) with (Zpos (digits2_pos p) - 1 + k) by lia.
  rewrite !Z.pow_add_r by lia.
  assert (0 < 2 ^ k) by (apply Z.pow_pos_nonneg; lia).
  split; nia.
Qed.

Lemma binary_round_not_nan s m e :
  is_nan (binary_round prec emax s m e) = false.
Proof.
  unfold binary_round.
  destruct (shl_align m e _) as [mz ez].
  apply binary_round_aux_not_nan. lia.
Qed.

Lemma binary_round_finite s m e :
  e <= emax - prec -> Zpos (digits2_pos m) + e <= emax - 1 ->
  is_finite (binary_round prec emax s m e) = true.
Proof.
  intros He Hd. unfold binary_round.
  pose proof (shl_align_spec m e (fexp prec emax (Zpos (digits2_pos m) + e))) as [H1 H2].
  destruct (shl_align m e _) as [mz ez]. cbn [fst snd] in H1, H2.
  apply binary_round_aux_finite; try lia.
  rewrite H2, Zdigits2_mul_pow2 by lia. cbn [Zdigits2]. lia.
Qed.

Lemma binary_normalize_not_nan m e sz :
  is_nan (binary_normalize prec emax m e sz) = false.
Proof.
  destruct m; simpl; auto using binary_round_not_nan.
Qed.

Lemma binary_normalize_finite m e sz :
  e <= emax - prec -> Zdigits2 m + e <= emax - 1 ->
  is_finite (binary_normalize prec emax m e sz) = true.
Proof.
  intros He Hd. destruct m; simpl in *; auto using binary_round_finite.
Qed.

(** *** The arithmetic operators never invent a [NaN] *)

Lemma mul_not_nan x y :
  is_finite x = true -> is_finite y = true -> is_nan (mul x y) = false.
Proof.
  destruct x, y; simpl; try discriminate; auto.
  intros _ _. apply binary_round_aux_not_nan. lia.
Qed.

Lemma add_not_nan x y :
  is_finite x = true -> is_nan y = false -> is_nan (add x y) = false.
Proof.
  destruct x as [sx| | |sx mx ex], y as [sy|sy| |sy my ey];
    simpl; try discriminate; auto.
  - destruct sx, sy; reflexivity.
  - intros _ _. apply binary_normalize_not_nan.
Qed.

(** *** Clamping *)

Lemma SFcompare_antisym x y :
  SFcompare x y = option_map CompOpp (SFcompare y x).
Proof.
  destruct x as [sx|sx| |sx mx ex], y as [sy|sy| |sy my ey];
    simpl; try reflexivity;
    try (destruct sx; reflexivity); try (destruct sy; reflexivity);
    try (destruct sx, sy; reflexivity).
  pose proof (Pos.compare_cont_antisym my mx Eq) as A. simpl in A.
  destruct sx, sy; simpl; try reflexivity;
    rewrite (Z.compare_antisym ey ex);
    destruct (ey ?= ex); simpl; try reflexivity;
    rewrite <- A; now rewrite ?CompOpp_involutive.
Qed.

(** [Math.max(0, Math.min(255, x))] lies between 0 and 255 unless [x] is
    [NaN]. *)
Lemma clamp_in_range x :
  is_nan x = false ->
  let y := Math_max (of_Z 0) (Math_min (of_Z 255) x) in
  leb (of_Z 0) y = true /\ leb y (of_Z 255) = true.
Proof.
  intros Hx. unfold Math_min.
  destruct (SFcompare (of_Z 255) x) as [[| |]|] eqn:E.
  - vm_compute. auto.
  - vm_compute. auto.
  - unfold Math_max.
    destruct (SFcompare (of_Z 0) x) as [[| |]|] eqn:E0.
    + vm_compute. auto.
    + split.
      * unfold leb, SFleb. now rewrite E0.
      * unfold leb, SFleb. rewrite SFcompare_antisym, E. reflexivity.
    + vm_compute. auto.
    + destruct x; try discriminate; simpl in E0; discriminate.
  - destruct x; try discriminate; simpl in E; discriminate.
Qed.

(** *** Subtracting the midpoint *)

Lemma Zdigits2_abs_le m k :
  0 <= k -> Z.abs m < 2 ^ k -> Zdigits2 m <= k.
Proof.
  intros Hk Hm.
  replace (Zdigits2 m) with (Zdigits2 (Z.abs m)) by (destruct m; reflexivity).
  apply Zdigits2_le; lia.
Qed.

(** A binary64 value has at most 53 binary digits. *)
Lemma is_double_mantissa s m e :
  is_double (S754_finite s m e) = true -> Zpos m < 2 ^ 53.
Proof.
  unfold is_double, valid_binary, bounded, canonical_mantissa.
  intros H. apply andb_prop in H. destruct H as [H _].
  apply Z.eqb_eq in H.
  pose proof (digits2_pos_bounds m) as [_ Hh].
  apply Z.lt_le_trans with (1 := Hh).
  apply Z.pow_le_mono_r; [lia|].
  unfold fexp, emin, prec, emax in H. lia.
Qed.

Lemma sub_128_finite g :
  is_double g = true ->
  leb (of_Z 0) g = true -> leb g (of_Z 255) = true ->
  is_finite (sub g (of_Z 128)) = true.
Proof.
  intros Hv H0 H255.
  destruct g as [s|s| |s m e]; try (destruct s; discriminate); try discriminate.
  - reflexivity.
  - destruct s; [discriminate|].
    pose proof (is_double_mantissa _ _ _ Hv) as Hm.
    change (of_Z 255) with (S754_finite false 8972014882652160 (-45)) in H255.
    change (of_Z 128) with (S754_finite false 4503599627370496 (-45)).
    assert (He : e <= -45).
    { unfold leb, SFleb, SFcompare in H255.
      destruct (Z.compare_spec e (-45)); try lia; discriminate. }
    assert (Emin : Z.min e (-45) = e) by lia.
    unfold sub, SFsub. cbv zeta. rewrite Emin.
    pose proof (shl_align_spec m e e) as [_ Ha].
    rewrite Z.min_id, Z.sub_diag, Z.mul_1_r in Ha.
    pose proof (shl_align_spec 4503599627370496 (-45) e) as [_ Hb].
    rewrite (Z.min_r (-45) e) in Hb by lia.
    unfold cond_Zopp. rewrite Ha, Hb.
    apply binary_normalize_finite; [unfold emax, prec; lia|].
    assert (Hp : 0 < 2 ^ (-45 - e)) by (apply Z.pow_pos_nonneg; lia).
    assert (Hb2 : 4503599627370496 * 2 ^ (-45 - e) = 2 ^ (7 - e)).
    { change 4503599627370496 with (2 ^ 52).
      rewrite <- Z.pow_add_r by lia. f_equal. lia. }
    rewrite Hb2.
    assert (Hlt : Z.abs (Zpos m - 2 ^ (7 - e)) < 2 ^ (53 - e)).
    { assert (2 ^ 53 <= 2 ^ (53 - e)) by (apply Z.pow_le_mono_r; lia).
      assert (2 ^ (7 - e) < 2 ^ (53 - e)) by (apply Z.pow_lt_mono_r; lia).
      assert (0 < 2 ^ (7 - e)) by (apply Z.pow_pos_nonneg; lia).
      lia. }
    pose proof (Zdigits2_abs_le _ (53 - e) ltac:(lia) Hlt).
    unfold emax. lia.
Qed.


(** *** Shifts that lose nothing *)

Lemma shr_1_exact m :
  0 <= m -> (2 | m) ->
  shr_1 {| shr_m := m; shr_r := false; shr_s := false |} =
  {| shr_m := m / 2; shr_r := false; shr_s := false |}.
Proof.
  intros Hm [c Hc]. rewrite <- Z.div2_div.
  destruct m as [|[p|p|]|]; try reflexivity; lia.
Qed.

Lemma divide_pow2_div m k n :
  0 <= k -> 0 <= n -> (2 ^ (k + n) | m) -> (2 ^ n | m / 2 ^ k).
Proof.
  intros Hk Hn [c Hc]. exists c. subst m.
  rewrite Z.pow_add_r, (Z.mul_comm (2 ^ k)), Z.mul_assoc by lia.
  apply Z.div_mul. apply Z.pow_nonzero; lia.
Qed.

Lemma divide_pow2_le m k n :
  0 <= n <= k -> (2 ^ k | m) -> (2 ^ n | m).
Proof.
  intros Hk [c Hc]. exists (c * 2 ^ (k - n)). subst m.
  rewrite <- Z.mul_assoc, <- Z.pow_add_r by lia. do 2 f_equal. lia.
Qed.

Lemma iter_pos_shr_1_exact p : forall m,
  0 <= m -> (2 ^ Zpos p | m) ->
  iter_pos shr_1 p {| shr_m := m; shr_r := false; shr_s := false |} =
  {| shr_m := m / 2 ^ Zpos p; shr_r := false; shr_s := false |}.
Proof.
  induction p as [p IH|p IH|]; intros m Hm Hd; cbn [iter_pos].
  - assert (Hp : 0 < 2 ^ Zpos p) by (apply Z.pow_pos_nonneg; lia).
    rewrite pow2_xI in Hd.
    assert (H2 : (2 | m)) by (destruct Hd as [c Hc]; exists (c * (2 ^ Zpos p * 2 ^ Zpos p)); lia).
    rewrite shr_1_exact by assumption.
    assert (Hd1 : (2 ^ (Zpos p + Zpos p) | m / 2)).
    { destruct Hd as [c Hc]. exists c. subst m.
      rewrite Z.pow_add_r by lia.
      replace (c * (2 * (2 ^ Zpos p * 2 ^ Zpos p))) with (c * (2 ^ Zpos p * 2 ^ Zpos p) * 2) by ring.
      now rewrite Z.div_mul by lia. }
    rewrite IH; [|apply Z.div_pos; lia|apply (divide_pow2_le _ (Zpos p + Zpos p)); [lia|assumption]].
    rewrite IH; [|apply Z.div_pos; [apply Z.div_pos|]; lia|
                 apply divide_pow2_div; [lia|lia|assumption]].
    rewrite !Z.div_div by lia. rewrite pow2_xI. do 2 f_equal; ring.
  - assert (Hp : 0 < 2 ^ Zpos p) by (apply Z.pow_pos_nonneg; lia).
    rewrite pow2_xO, <- Z.pow_add_r in Hd by lia.
    rewrite IH; [|lia|apply (divide_pow2_le _ (Zpos p + Zpos p)); [lia|assumption]].
    rewrite IH; [|apply Z.div_pos; lia|apply divide_pow2_div; [lia|lia|assumption]].
    rewrite !Z.div_div by lia. rewrite pow2_xO. do 2 f_equal; ring.
  - apply shr_1_exact; assumption.
Qed.

Lemma loc_of_shr_record_of_loc m l :
  loc_of_shr_record (shr_record_of_loc m l) = l.
Proof. destruct l as [|[]]; reflexivity. Qed.

(** No shift when the exponent is already the one the format asks for. *)
Lemma shr_fexp_noshift m e l :
  fexp prec emax (Zdigits2 m + e) <= e ->
  shr_fexp prec emax m e l = (shr_record_of_loc m l, e).
Proof.
  intros H. unfold shr_fexp, shr.
  destruct (fexp prec emax (Zdigits2 m + e) - e) eqn:E; try reflexivity. lia.
Qed.

Lemma shr_fexp_one m e l :
  fexp prec emax (Zdigits2 m + e) = e + 1 ->
  shr_fexp prec emax m e l = (shr_1 (shr_record_of_loc m l), e + 1).
Proof.
  intros H. unfold shr_fexp, shr.
  replace (fexp prec emax (Zdigits2 m + e) - e) with 1 by lia. reflexivity.
Qed.

Lemma shr_fexp_exact m e :
  0 <= m ->
  let n := fexp prec emax (Zdigits2 m + e) - e in
  0 <= n -> (2 ^ n | m) ->
  shr_fexp prec emax m e loc_Exact =
    ({| shr_m := m / 2 ^ n; shr_r := false; shr_s := false |}, e + n).
Proof.
  intros Hm n Hn Hd. unfold shr_fexp, shr. fold n.
  destruct n as [|p|p]; try lia.
  - simpl. now rewrite Z.div_1_r, Z.add_0_r.
  - simpl shr_record_of_loc. now rewrite iter_pos_shr_1_exact.
Qed.

(** *** Whole numbers are represented exactly *)

Lemma Zdigits2_pos n : 0 < n -> 0 < Zdigits2 n.
Proof. destruct n; simpl; lia. Qed.

Lemma binary_round_integer s m e n :
  0 < n < 2 ^ 53 -> e <= 0 -> Zpos m = n * 2 ^ (- e) ->
  binary_round prec emax s m e = integer_double s n.
Proof.
  intros Hn He Hm.
  set (d := Zdigits2 n).
  assert (Hd : 1 <= d <= 53).
  { pose proof (Zdigits2_pos n ltac:(lia)).
    pose proof (Zdigits2_le n 53 ltac:(lia) ltac:(lia) ltac:(lia)). unfold d. lia. }
  assert (Hdm : Zpos (digits2_pos m) = d - e).
  { change (Zpos (digits2_pos m)) with (Zdigits2 (Zpos m)).
    rewrite Hm, Zdigits2_mul_pow2 by lia. unfold d. lia. }
  unfold binary_round. rewrite Hdm.
  replace (d - e + e) with d by lia.
  assert (Hf : fexp prec emax d = d - 53) by (unfold fexp, emin, emax, prec; lia).
  rewrite Hf.
  pose proof (shl_align_spec m e (d - 53)) as [H1 H2].
  destruct (shl_align m e (d - 53)) as [mz ez]. cbn [fst snd] in H1, H2.
  assert (Hmz : Zpos mz = n * 2 ^ (- ez)).
  { rewrite H2, Hm, <- Z.mul_assoc, <- Z.pow_add_r by lia. do 2 f_equal. lia. }
  assert (Hdz : Zdigits2 (Zpos mz) = d - ez).
  { rewrite Hmz, Zdigits2_mul_pow2 by lia. unfold d. lia. }
  set (M := n * 2 ^ (53 - d)).
  assert (HM : 0 < M) by (apply Z.mul_pos_pos; [lia | apply Z.pow_pos_nonneg; lia]).
  assert (HdM : Zdigits2 M = 53).
  { unfold M. rewrite Zdigits2_mul_pow2 by lia. unfold d. lia. }
  assert (Hq : Zpos mz / 2 ^ (d - 53 - ez) = M).
  { rewrite Hmz. unfold M.
    replace (- ez) with ((53 - d) + (d - 53 - ez)) by lia.
    rewrite Z.pow_add_r, Z.mul_assoc by lia.
    apply Z.div_mul. apply Z.pow_nonzero; lia. }
  unfold binary_round_aux.
  rewrite (shr_fexp_exact (Zpos mz) ez ltac:(lia)).
  - rewrite Hdz. replace (d - ez + ez) with d by lia. rewrite Hf.
    cbn [shr_m loc_of_shr_record round_nearest_even].
    rewrite Hq. replace (ez + (d - 53 - ez)) with (d - 53) by lia.
    rewrite shr_fexp_noshift
      by (rewrite HdM; unfold fexp, emin, emax, prec; lia).
    cbn [shr_record_of_loc shr_m].
    unfold integer_double. fold d. fold M.
    destruct M as [|pM|pM]; try lia.
    destruct (Z.leb_spec (d - 53) (emax - prec)); [reflexivity|].
    unfold emax, prec in *; lia.
  - rewrite Hdz. replace (d - ez + ez) with d by lia. rewrite Hf. lia.
  - rewrite Hdz. replace (d - ez + ez) with d by lia. rewrite Hf.
    exists (n * 2 ^ (53 - d)). rewrite Hmz.
    rewrite <- Z.mul_assoc, <- Z.pow_add_r by lia. do 2 f_equal. lia.
Qed.

Lemma of_Z_integer n : 0 < n < 2 ^ 53 -> of_Z n = integer_double false n.
Proof.
  intros Hn. unfold of_Z, binary_normalize.
  destruct n as [|p|p]; try lia.
  apply binary_round_integer; [lia | lia | simpl; lia].
Qed.

Lemma of_Z_0 : of_Z 0 = S754_zero false.
Proof. reflexivity. Qed.

(** The mantissa and exponent of [integer_double]. *)
Lemma integer_double_spec s n :
  0 < n < 2 ^ 53 ->
  exists m e, integer_double s n = S754_finite s m e /\
              -52 <= e <= 0 /\ Zpos m = n * 2 ^ (- e) /\
              2 ^ 52 <= Zpos m < 2 ^ 53.
Proof.
  intros Hn. set (d := Zdigits2 n).
  assert (Hd : 1 <= d <= 53).
  { pose proof (Zdigits2_pos n ltac:(lia)).
    pose proof (Zdigits2_le n 53 ltac:(lia) ltac:(lia) ltac:(lia)). unfold d. lia. }
  set (M := n * 2 ^ (53 - d)).
  assert (HM : 0 < M) by (apply Z.mul_pos_pos; [lia | apply Z.pow_pos_nonneg; lia]).
  exists (Z.to_pos M), (d - 53). unfold integer_double. fold d. fold M.
  rewrite Z2Pos.id by lia.
  split; [reflexivity|]. split; [lia|]. split.
  - unfold M. do 2 f_equal. lia.
  - assert (HdM : Zdigits2 M = 53).
    { unfold M. rewrite Zdigits2_mul_pow2 by lia. unfold d. lia. }
    destruct M as [|pM|pM]; try lia.
    pose proof (digits2_pos_bounds pM) as Hb.
    simpl Zdigits2 in HdM. rewrite HdM in Hb. exact Hb.
Qed.

(** A non-zero whole number of magnitude below 2^53 is represented by its
    sign and magnitude. *)
Lemma of_Z_signed n :
  0 < Z.abs n < 2 ^ 53 -> of_Z n = integer_double (n <? 0) (Z.abs n).
Proof.
  intros Hn. unfold of_Z, binary_normalize.
  destruct n as [|p|p]; try (simpl in Hn; lia).
  - apply binary_round_integer; [exact Hn | lia | simpl; lia].
  - apply binary_round_integer; [exact Hn | lia | simpl; lia].
Qed.

Lemma cond_Zopp_abs n : cond_Zopp (n <? 0) (Z.abs n) = n.
Proof. unfold cond_Zopp. destruct (Z.ltb_spec n 0); lia. Qed.

(** Adding two whole numbers gives their sum, as long as all three are
    below 2^53 in magnitude. *)
Lemma add_of_Z a b :
  Z.abs a < 2 ^ 53 -> Z.abs b < 2 ^ 53 -> Z.abs (a + b) < 2 ^ 53 ->
  add (of_Z a) (of_Z b) = of_Z (a + b).
Proof.
  intros Ha Hb Hab.
  destruct (Z.eq_dec a 0) as [->|Ha0].
  { destruct (Z.eq_dec b 0) as [->|Hb0]; [reflexivity|].
    rewrite Z.add_0_l, (of_Z_signed b) by lia.
    destruct (integer_double_spec (b <? 0) (Z.abs b) ltac:(lia)) as (m & e & E & _).
    now rewrite E. }
  destruct (Z.eq_dec b 0) as [->|Hb0].
  { rewrite Z.add_0_r, (of_Z_signed a) by lia.
    destruct (integer_double_spec (a <? 0) (Z.abs a) ltac:(lia)) as (m & e & E & _).
    now rewrite E. }
  rewrite (of_Z_signed a), (of_Z_signed b) by lia.
  destruct (integer_double_spec (a <? 0) (Z.abs a) ltac:(lia))
    as (ma & ea & Ea & Hea & Hma & _).
  destruct (integer_double_spec (b <? 0) (Z.abs b) ltac:(lia))
    as (mb & eb & Eb & Heb & Hmb & _).
  rewrite Ea, Eb. unfold add, SFadd. cbv zeta.
  pose proof (shl_align_spec ma ea (Z.min ea eb)) as [_ H1].
  pose proof (shl_align_spec mb eb (Z.min ea eb)) as [_ H2].
  rewrite (Z.min_r ea (Z.min ea eb)) in H1 by lia.
  rewrite (Z.min_r eb (Z.min ea eb)) in H2 by lia.
  rewrite H1, H2.
  set (ez := Z.min ea eb) in *.
  assert (Hs : cond_Zopp (a <? 0) (Zpos ma * 2 ^ (ea - ez))
               + cond_Zopp (b <? 0) (Zpos mb * 2 ^ (eb - ez))
               = (a + b) * 2 ^ (- ez)).
  { rewrite Hma, Hmb, <- !Z.mul_assoc, <- !Z.pow_add_r by lia.
    replace (- ea + (ea - ez)) with (- ez) by lia.
    replace (- eb + (eb - ez)) with (- ez) by lia.
    rewrite <- (cond_Zopp_abs a) at 3. rewrite <- (cond_Zopp_abs b) at 3.
    unfold cond_Zopp. destruct (a <? 0), (b <? 0); ring. }
  rewrite Hs.
  assert (Hp : 0 < 2 ^ (- ez)) by (apply Z.pow_pos_nonneg; lia).
  unfold binary_normalize.
  destruct ((a + b) * 2 ^ (- ez)) as [|p|p] eqn:Ep.
  - assert (a + b = 0) by nia. now replace (a + b) with 0.
  - assert (0 < a + b) by nia.
    rewrite (of_Z_signed (a + b)) by lia.
    replace (a + b <? 0) with false by (symmetry; apply Z.ltb_ge; lia).
    apply binary_round_integer; try lia.
  - assert (a + b < 0) by nia.
    rewrite (of_Z_signed (a + b)) by lia.
    replace (a + b <? 0) with true by (symmetry; apply Z.ltb_lt; lia).
    apply binary_round_integer; try lia.
Qed.

(** *** Flooring a quotient of whole numbers *)

Lemma div_eucl_eq a b : Z.div_eucl a b = (a / b, a mod b).
Proof. unfold Z.div, Z.modulo. now destruct (Z.div_eucl a b). Qed.

Lemma floor_scaled_eq m e t :
  0 <= t -> 0 <= e + t -> floor_scaled m e = (m * 2 ^ (e + t)) / 2 ^ t.
Proof.
  intros Ht Het. unfold floor_scaled.
  destruct (Z.leb_spec 0 e).
  - rewrite Z.shiftl_mul_pow2, Z.pow_add_r, Z.mul_assoc by lia.
    symmetry. apply Z.div_mul. apply Z.pow_nonzero; lia.
  - rewrite Z.shiftr_div_pow2 by lia.
    replace t with ((- e) + (e + t)) at 2 by lia.
    rewrite (Z.pow_add_r 2 (- e)) by lia.
    symmetry. apply Z.div_mul_cancel_r; apply Z.pow_nonzero; lia.
Qed.

Lemma div_between x n k :
  0 < k -> n * k <= x < (n + 1) * k -> x / k = n.
Proof.
  intros Hk Hx. symmetry. apply (Z.div_unique x k n (x - n * k)); lia.
Qed.

Lemma SFdiv_core_normal ma ea mb eb :
  2 ^ 52 <= Zpos ma < 2 ^ 53 -> 2 ^ 52 <= Zpos mb < 2 ^ 53 ->
  -52 <= ea <= 0 -> -52 <= eb <= 0 ->
  SFdiv_core_binary prec emax (Zpos ma) ea (Zpos mb) eb =
    ((Zpos ma * 2 ^ 53) / Zpos mb, ea - eb - 53,
     new_location (Zpos mb) ((Zpos ma * 2 ^ 53) mod Zpos mb)).
Proof.
  intros Ha Hb Hea Heb. unfold SFdiv_core_binary.
  rewrite (Zdigits2_unique (Zpos ma) 53), (Zdigits2_unique (Zpos mb) 53) by (simpl; lia).
  assert (E : Z.min (fexp prec emax (53 + ea - (53 + eb))) (ea - eb) = ea - eb - 53)
    by (unfold fexp, emin, emax, prec; lia).
  rewrite E.
  replace (ea - eb - (ea - eb - 53)) with 53 by lia.
  rewrite Z.shiftl_mul_pow2 by lia.
  now rewrite div_eucl_eq.
Qed.

(** After one shift, rounding moves the doubled mantissa by at most one,
    and not at all when the shifted-out digit was 0. *)
Lemma round_after_shr_1 q l :
  0 <= q ->
  let m2 := round_nearest_even (q / 2)
              (loc_of_shr_record (shr_1 (shr_record_of_loc q l))) in
  2 * m2 = q \/ (Z.odd q = true /\ (2 * m2 = q - 1 \/ 2 * m2 = q + 1)).
Proof.
  intros Hq. rewrite <- Z.div2_div.
  destruct q as [|[p|p|]|p]; try lia;
    destruct l as [|[]]; cbn - [Z.mul Z.add Z.sub Z.even];
    try match goal with |- context [Z.even ?x] => destruct (Z.even x) end;
    lia.
Qed.

(** The quotient of two whole numbers below 2^53, floored, is their
    integer quotient: rounding the quotient to 53 digits never reaches the
    next whole number. *)
Lemma div_of_Z_floor a b :
  0 < a < 2 ^ 53 -> 0 < b < 2 ^ 53 ->
  exists m e, div (of_Z a) (of_Z b) = S754_finite false m e /\
              floor_scaled (Zpos m) e = a / b.
Proof.
  intros Ha Hb.
  rewrite (of_Z_integer a), (of_Z_integer b) by lia.
  destruct (integer_double_spec false a Ha) as (ma & ea & Ea & Hea & Hma & Hra).
  destruct (integer_double_spec false b Hb) as (mb & eb & Eb & Heb & Hmb & Hrb).
  rewrite Ea, Eb. unfold div, SFdiv.
  rewrite SFdiv_core_normal by assumption.
  set (t := 53 + eb - ea).
  assert (Ht : 1 <= t <= 105) by (unfold t; lia).
  replace (ea - eb - 53) with (- t) by (unfold t; lia).
  set (Q := Zpos ma * 2 ^ 53 / Zpos mb).
  set (loc := new_location (Zpos mb) (Zpos ma * 2 ^ 53 mod Zpos mb)).
  cbn [xorb].
  assert (H2t : 0 < 2 ^ t) by (apply Z.pow_pos_nonneg; lia).
  assert (H2eb : 0 < 2 ^ (- eb)) by (apply Z.pow_pos_nonneg; lia).
  (* the quotient in terms of [a] and [b] *)
  assert (HQ : Q = (a * 2 ^ t) / b).
  { unfold Q. rewrite Hma, Hmb.
    replace (a * 2 ^ (- ea) * 2 ^ 53) with (a * 2 ^ t * 2 ^ (- eb)).
    - apply Z.div_mul_cancel_r; lia.
    - rewrite <- !Z.mul_assoc, <- !Z.pow_add_r by lia.
      do 2 f_equal. unfold t. lia. }
  assert (HQr : 2 ^ 52 <= Q < 2 ^ 54).
  { unfold Q. split.
    - apply Z.div_le_lower_bound; lia.
    - apply Z.div_lt_upper_bound; lia. }
  assert (Hbt : b < 2 ^ t).
  { assert (b * 2 ^ (- eb) < 2 ^ (53 + eb) * 2 ^ (- eb)).
    { rewrite <- Z.pow_add_r by lia. replace (53 + eb + - eb) with 53 by lia. lia. }
    assert (b < 2 ^ (53 + eb)) by nia.
    assert (2 ^ (53 + eb) <= 2 ^ t) by (apply Z.pow_le_mono_r; unfold t; lia).
    lia. }
  (* where the scaled quotient lies *)
  set (n := a / b).
  assert (Hn : 0 <= n) by (apply Z.div_pos; lia).
  assert (HQn : n * 2 ^ t <= Q <= (n + 1) * 2 ^ t - 2).
  { pose proof (Z.div_mod a b ltac:(lia)) as Hdm. fold n in Hdm.
    pose proof (Z.mod_pos_bound a b ltac:(lia)) as Hr.
    set (r := a mod b) in *.
    rewrite HQ. split.
    - apply Z.div_le_lower_bound; [lia|]. nia.
    - assert (a * 2 ^ t / b < (n + 1) * 2 ^ t - 1); [|lia].
      apply Z.div_lt_upper_bound; [lia|]. nia. }
  assert (Hpar : (n * 2 ^ t) mod 2 = 0).
  { replace t with (1 + (t - 1)) by lia.
    rewrite Z.pow_add_r, Z.mul_assoc by lia.
    change (2 ^ 1) with 2.
    replace (n * 2 * 2 ^ (t - 1)) with (n * 2 ^ (t - 1) * 2) by ring.
    apply Z.mod_mul. lia. }
  rewrite binary_round_aux_spec by lia.
  set (n1 := Z.max 0 (fexp prec emax (Zdigits2 Q + - t) - - t)).
  set (l1 := loc_of_shr_record (fst (shr_fexp prec emax Q (- t) loc))).
  set (m2 := round_nearest_even (Q / 2 ^ n1) l1).
  set (n2 := Z.max 0 (fexp prec emax (Zdigits2 m2 + (- t + n1)) - (- t + n1))).
  (* the rounded mantissa, scaled back, still floors to [n] *)
  assert (Hm2 : 2 ^ 52 <= m2 <= 2 ^ 53 /\ 0 <= - t + n1 + t <= 1 /\
                (m2 * 2 ^ (- t + n1 + t)) / 2 ^ t = n).
  { destruct (Z.lt_ge_cases Q (2 ^ 53)) as [Hlt|Hge].
    - assert (En1 : n1 = 0).
      { unfold n1. rewrite (Zdigits2_unique Q 53) by lia.
        unfold fexp, emin, emax, prec. lia. }
      pose proof (round_nearest_even_bounds (Q / 2 ^ n1) l1) as Hb2.
      fold m2 in Hb2. rewrite En1 in *. simpl (2 ^ 0) in Hb2.
      rewrite Z.div_1_r in Hb2.
      split; [lia|]. split; [lia|].
      replace (- t + 0 + t) with 0 by lia. rewrite Z.mul_1_r.
      apply div_between; lia.
    - assert (Ed : fexp prec emax (Zdigits2 Q + - t) = - t + 1).
      { rewrite (Zdigits2_unique Q 54) by lia.
        unfold fexp, emin, emax, prec. lia. }
      assert (En1 : n1 = 1) by (unfold n1; rewrite Ed; lia).
      assert (El1 : l1 = loc_of_shr_record (shr_1 (shr_record_of_loc Q loc))).
      { unfold l1. now rewrite shr_fexp_one. }
      pose proof (round_after_shr_1 Q loc ltac:(lia)) as Hr.
      cbv zeta in Hr. rewrite <- El1 in Hr.
      unfold m2 in *. rewrite En1 in *. change (2 ^ 1) with 2 in *.
      set (m := round_nearest_even (Q / 2) l1) in *.
      split; [lia|]. split; [lia|].
      replace (- t + 1 + t) with 1 by lia. change (2 ^ 1) with 2.
      apply div_between; [lia|].
      destruct Hr as [Hr|[Hodd [Hr|Hr]]]; try lia.
      pose proof (Zmod_odd Q) as Hmo. rewrite Hodd in Hmo.
      assert (Q mod 2 <> (n * 2 ^ t) mod 2) by lia.
      assert (Q <> n * 2 ^ t) by congruence. lia. }
  destruct Hm2 as (Hm2r & He1 & Hfl).
  (* the second shift only renormalises a carry *)
  assert (Hn2 : 0 <= n2 <= 1 /\ (m2 / 2 ^ n2) * 2 ^ n2 = m2 /\ 0 < m2 / 2 ^ n2).
  { destruct (Z.eq_dec m2 (2 ^ 53)) as [E|NE].
    - assert (En2 : n2 = 1).
      { unfold n2. rewrite E. change (Zdigits2 (2 ^ 53)) with 54.
        unfold fexp, emin, emax, prec. lia. }
      rewrite En2, E. split; [lia|]. split; reflexivity.
    - assert (En2 : n2 = 0).
      { unfold n2. rewrite (Zdigits2_unique m2 53) by lia.
        unfold fexp, emin, emax, prec. lia. }
      rewrite En2. simpl (2 ^ 0). rewrite Z.div_1_r. lia. }
  destruct Hn2 as (Hn2r & Hex & Hpos).
  set (m3 := m2 / 2 ^ n2) in *.
  unfold pack. destruct m3 as [|p3|p3] eqn:E3; try lia.
  destruct (Z.leb_spec (- t + n1 + n2) (emax - prec)); [|unfold emax, prec in *; lia].
  exists p3, (- t + n1 + n2). split; [reflexivity|].
  rewrite (floor_scaled_eq _ _ t) by lia.
  fold n. rewrite <- Hfl. f_equal.
  rewrite <- Hex.
  replace (- t + n1 + n2 + t) with (n2 + (- t + n1 + t)) by lia.
  rewrite Z.pow_add_r by lia. ring.
Qed.

(** *** Floors of values, and divisors of the form [b / 2^j] *)

Lemma Qpower_2_nonneg e : 0 <= e -> (Qpower 2 e == inject_Z (2 ^ e))%Q.
Proof. intros He. symmetry. apply (Zpower_Qpower 2 e He). Qed.

Lemma Qpower_2_nonpos e :
  e <= 0 -> (Qpower 2 e == 1 / inject_Z (2 ^ (- e)))%Q.
Proof.
  intros He. replace e with (- (- e)) at 1 by lia.
  rewrite Qpower_opp, Qpower_2_nonneg by lia.
  unfold Qdiv. now rewrite Qmult_1_l.
Qed.

Lemma inject_Z_nonzero n : 0 < n -> (~ inject_Z n == 0)%Q.
Proof.
  intros Hn E. apply eq_sym in E. revert E. apply Qlt_not_eq.
  change 0%Q with (inject_Z 0). rewrite <- Zlt_Qlt. exact Hn.
Qed.

(** [floor_scaled] is the floor of the rational [M * 2^e]. *)
Lemma Qfloor_scaled M e :
  Qfloor (inject_Z M * Qpower 2 e) = floor_scaled M e.
Proof.
  unfold floor_scaled. destruct (Z.leb_spec 0 e).
  - rewrite (Qfloor_comp _ (inject_Z (M * 2 ^ e))).
    + rewrite Qfloor_Z, Z.shiftl_mul_pow2 by lia. reflexivity.
    + rewrite Qpower_2_nonneg by lia. now rewrite inject_Z_mult.
  - rewrite (Qfloor_comp _ (inject_Z M / inject_Z (2 ^ (- e)))).
    + rewrite <- Zdiv_Qdiv, Z.shiftr_div_pow2 by lia. reflexivity.
    + rewrite Qpower_2_nonpos by lia. unfold Qdiv. now rewrite Qmult_1_l.
Qed.

Lemma Qfloor_value s m e :
  Qfloor (value (S754_finite s m e)) = floor_scaled (cond_Zopp s (Zpos m)) e.
Proof. apply Qfloor_scaled. Qed.

Lemma floor_scaled_neg m e : m < 0 -> floor_scaled m e < 0.
Proof.
  intros Hm. unfold floor_scaled. destruct (Z.leb_spec 0 e).
  - rewrite Z.shiftl_mul_pow2 by lia.
    pose proof (Z.pow_pos_nonneg 2 e ltac:(lia) ltac:(lia)). nia.
  - rewrite Z.shiftr_div_pow2 by lia.
    pose proof (Z.pow_pos_nonneg 2 (- e) ltac:(lia) ltac:(lia)).
    apply Z.div_lt_upper_bound; lia.
Qed.

(** Division only sees the difference of the two exponents. *)
Lemma div_shift s1 m1 e1 s2 m2 e2 c :
  div (S754_finite s1 m1 (e1 + c)) (S754_finite s2 m2 (e2 + c))
  = div (S754_finite s1 m1 e1) (S754_finite s2 m2 e2).
Proof.
  unfold div, SFdiv, SFdiv_core_binary.
  replace (Zdigits2 (Zpos m1) + (e1 + c) - (Zdigits2 (Zpos m2) + (e2 + c)))
    with (Zdigits2 (Zpos m1) + e1 - (Zdigits2 (Zpos m2) + e2)) by lia.
  replace (e1 + c - (e2 + c)) with (e1 - e2) by lia.
  reflexivity.
Qed.

Lemma integer_double_shift s n j :
  0 < n -> 0 <= j -> n * 2 ^ j < 2 ^ 53 ->
  integer_double s (n * 2 ^ j)
  = match integer_double s n with
    | S754_finite s' m e => S754_finite s' m (e + j)
    | x => x
    end.
Proof.
  intros Hn Hj Hlt. unfold integer_double.
  rewrite Zdigits2_mul_pow2 by lia.
  assert (Hd : Zdigits2 n + j <= 53).
  { rewrite <- Zdigits2_mul_pow2 by lia.
    pose proof (Z.pow_pos_nonneg 2 j ltac:(lia) Hj).
    apply Zdigits2_le; [nia | lia | lia]. }
  pose proof (Zdigits2_pos n Hn).
  f_equal; [|lia]. f_equal.
  rewrite <- Z.mul_assoc, <- Z.pow_add_r by lia.
  do 2 f_equal. lia.
Qed.

Lemma dyadic_finite b j :
  0 < b < 2 ^ 53 ->
  exists m e, of_Z b = S754_finite false m e /\
              dyadic b j = S754_finite false m (e - j) /\
              -52 <= e <= 0 /\ Zpos m = b * 2 ^ (- e).
Proof.
  intros Hb. unfold dyadic. rewrite of_Z_integer by lia.
  destruct (integer_double_spec false b Hb) as (m & e & E & He & Hm & _).
  rewrite E. exists m, e. auto.
Qed.

(** [dyadic b 0] is the whole number [b]. *)
Lemma dyadic_0 b : dyadic b 0 = of_Z b.
Proof.
  unfold dyadic. destruct (of_Z b) as [| | |s m e]; try reflexivity.
  now rewrite Z.sub_0_r.
Qed.

(** [dyadic b j] stands for [b / 2^j]. *)
Lemma value_dyadic b j :
  0 < b < 2 ^ 53 -> 0 <= j ->
  (value (dyadic b j) == inject_Z b / inject_Z (2 ^ j))%Q.
Proof.
  intros Hb Hj.
  destruct (dyadic_finite b j Hb) as (m & e & _ & Ed & He & Hm).
  rewrite Ed. unfold value, cond_Zopp. rewrite Hm.
  rewrite (Qpower_2_nonpos (e - j)) by lia.
  replace (- (e - j)) with (- e + j) by lia.
  rewrite Z.pow_add_r by lia. rewrite !inject_Z_mult.
  pose proof (inject_Z_nonzero (2 ^ (- e))
                (Z.pow_pos_nonneg 2 (- e) ltac:(lia) ltac:(lia))).
  pose proof (inject_Z_nonzero (2 ^ j)
                (Z.pow_pos_nonneg 2 j ltac:(lia) ltac:(lia))).
  field. split; assumption.
Qed.

(** The floor of the exact quotient of a whole number by [b / 2^j]. *)
Lemma Qfloor_div_dyadic W b j :
  0 < b < 2 ^ 53 -> 0 <= j ->
  Qfloor (inject_Z W / value (dyadic b j)) = (W * 2 ^ j) / b.
Proof.
  intros Hb Hj.
  rewrite Zdiv_Qdiv. apply Qfloor_comp.
  rewrite value_dyadic by assumption. rewrite inject_Z_mult.
  pose proof (inject_Z_nonzero (2 ^ j)
                (Z.pow_pos_nonneg 2 j ltac:(lia) ltac:(lia))).
  pose proof (inject_Z_nonzero b ltac:(lia)).
  field. split; assumption.
Qed.

(** Dividing a whole number by [b / 2^j] is dividing its [2^j]-fold by
    [b]: the same mantissas meet at the same exponent difference. *)
Lemma div_dyadic W b j :
  0 <= W -> 0 <= j -> W * 2 ^ j < 2 ^ 53 -> 0 < b < 2 ^ 53 ->
  div (of_Z W) (dyadic b j) = div (of_Z (W * 2 ^ j)) (of_Z b).
Proof.
  intros HW Hj Hlt Hb.
  destruct (dyadic_finite b j Hb) as (m & e & Eb & Ed & He & Hm).
  rewrite Ed, Eb.
  destruct (Z.eq_dec W 0) as [->|HW0]; [reflexivity|].
  pose proof (Z.pow_pos_nonneg 2 j ltac:(lia) Hj) as Hp.
  assert (HWlt : W < 2 ^ 53) by nia.
  rewrite (of_Z_integer W), (of_Z_integer (W * 2 ^ j)) by nia.
  rewrite integer_double_shift by lia.
  destruct (integer_double_spec false W ltac:(lia)) as (mW & eW & EW & _).
  rewrite EW.
  rewrite <- (div_shift false mW eW false m (e - j) j).
  do 2 f_equal. lia.
Qed.

End NumberFacts.

(* ================================================================= *)
(** ** Properties of the pixelation pipeline *)

Module PixelateFacts.

Import Pixelate NumberFacts.

(** *** The loops *)

Lemma drawSample_disc cfg data sc x y :
  drawSample cfg data sc x y = disc cfg data (width sc) x y.
Proof. reflexivity. Qed.

Lemma loop_x_total cfg data sc y : forall fuel x,
  width sc - x <= Z.of_nat fuel ->
  loop_x cfg fuel data sc y x =
    Some (flat_map (fun x' => disc cfg data (width sc) x' y)
                   (range x (Z.to_nat (width sc - x)))).
Proof.
  induction fuel as [|fuel IH]; intros x Hf; simpl loop_x.
  - destruct (Z.ltb_spec x (width sc)); [lia|].
    replace (Z.to_nat (width sc - x)) with O by lia. reflexivity.
  - destruct (Z.ltb_spec x (width sc)) as [Hlt|Hge].
    + rewrite IH by lia.
      replace (Z.to_nat (width sc - x)) with (S (Z.to_nat (width sc - (x + 1)))) by lia.
      reflexivity.
    + replace (Z.to_nat (width sc - x)) with O by lia. reflexivity.
Qed.

Lemma flat_map_map {A B C} (f : B -> list C) (g : A -> B) l :
  flat_map f (map g l) = flat_map (fun a => f (g a)) l.
Proof. induction l; simpl; congruence. Qed.

Lemma loop_y_total cfg data sc : forall fuel y,
  height sc - y <= Z.of_nat fuel ->
  loop_y cfg fuel data sc y =
    Some (flat_map (fun xy => disc cfg data (width sc) (fst xy) (snd xy))
            (flat_map (fun y' => map (fun x => (x, y')) (range 0 (Z.to_nat (width sc))))
                      (range y (Z.to_nat (height sc - y))))).
Proof.
  induction fuel as [|fuel IH]; intros y Hf; simpl loop_y.
  - destruct (Z.ltb_spec y (height sc)); [lia|].
    replace (Z.to_nat (height sc - y)) with O by lia. reflexivity.
  - destruct (Z.ltb_spec y (height sc)) as [Hlt|Hge].
    + rewrite loop_x_total by lia. rewrite IH by lia.
      replace (Z.to_nat (height sc - y)) with (S (Z.to_nat (height sc - (y + 1)))) by lia.
      simpl range. simpl flat_map. rewrite flat_map_app, flat_map_map.
      rewrite Z.sub_0_r. reflexivity.
    + replace (Z.to_nat (height sc - y)) with O by lia. reflexivity.
Qed.

(** The loops of [drawPixelatedImage] end for every raster, and draw the
    samples in row-major order. *)
Lemma drawPixelatedImage_total cfg data sc :
  drawPixelatedImage cfg data sc =
    Some (rendering cfg data (width sc) (height sc)).
Proof.
  unfold drawPixelatedImage. rewrite loop_y_total by lia.
  rewrite Z.sub_0_r. reflexivity.
Qed.

(** *** Grid coordinates *)

Lemma in_range z : forall n lo, In z (range lo n) <-> lo <= z < lo + Z.of_nat n.
Proof.
  induction n as [|n IH]; intros lo; simpl range.
  - simpl. lia.
  - simpl In. rewrite IH. lia.
Qed.

Lemma in_positions w h x y :
  In (x, y) (positions w h) <-> (0 <= x < w /\ 0 <= y < h).
Proof.
  unfold positions. rewrite in_flat_map. split.
  - intros (y' & Hy & Hx). apply in_map_iff in Hx.
    destruct Hx as (x' & E & Hx). inversion E; subst.
    apply in_range in Hy. apply in_range in Hx. lia.
  - intros [Hx Hy]. exists y. split.
    + apply in_range. lia.
    + apply in_map_iff. exists x. split; auto. apply in_range. lia.
Qed.

Lemma length_range n : forall lo, List.length (range lo n) = n.
Proof. induction n; intros lo; simpl; auto. Qed.

Lemma nth_range n : forall lo k,
  (k < n)%nat -> nth_error (range lo n) k = Some (lo + Z.of_nat k).
Proof.
  induction n as [|n IH]; intros lo k Hk; [lia|].
  destruct k as [|k]; simpl.
  - f_equal. lia.
  - rewrite IH by lia. f_equal. lia.
Qed.

Lemma nth_rows (row : list Z) (W : nat) :
  List.length row = W ->
  forall n lo k x,
    (k < n)%nat -> (x < W)%nat ->
    nth_error (flat_map (fun y => map (fun x' => (x', y)) row) (range lo n))
              (k * W + x)
    = option_map (fun x' => (x', lo + Z.of_nat k)) (nth_error row x).
Proof.
  intros Hrow. induction n as [|n IH]; intros lo k x Hk Hx; [lia|].
  cbn [range flat_map]. destruct k as [|k].
  - rewrite nth_error_app1 by (rewrite length_map; simpl; lia).
    simpl. rewrite nth_error_map, Z.add_0_r. reflexivity.
  - rewrite nth_error_app2 by (rewrite length_map; simpl; lia).
    rewrite length_map, Hrow.
    replace (S k * W + x - W)%nat with (k * W + x)%nat by (simpl; lia).
    rewrite IH by lia. destruct (nth_error row x); simpl; [|reflexivity].
    do 2 f_equal. lia.
Qed.

(** Row-major order: the sample at [(x, y)] is the one numbered
    [y * w + x]. *)
Lemma nth_positions w h x y :
  0 <= x < w -> 0 <= y < h ->
  nth_error (positions w h) (Z.to_nat (y * w + x)) = Some (x, y).
Proof.
  intros Hx Hy. unfold positions.
  replace (Z.to_nat (y * w + x))
    with (Z.to_nat y * Z.to_nat w + Z.to_nat x)%nat by nia.
  rewrite (nth_rows _ (Z.to_nat w) (length_range _ _)) by lia.
  rewrite nth_range by lia. simpl. do 2 f_equal; lia.
Qed.

(** *** Contrast *)

Lemma adjustContrast_gray_level cfg r g b :
  adjustContrast cfg (convertToGrayscale r g b) = gray_level cfg r g b.
Proof. reflexivity. Qed.


(** With an infinite contrast factor the midpoint is lost: [0 * Infinity]
    is [NaN], and [Math.min] and [Math.max] pass [NaN] through. *)
Remark adjustContrast_infinite_contrast :
  adjustContrast {| pixelSize := of_Z 3; gapSize := of_Z 3;
                    contrast := S754_infinity false |} (of_Z 128) = NaN.
Proof. reflexivity. Qed.

Example adjustContrast_bright : adjustContrast default_config (of_Z 200) = of_Z 255.
Proof. reflexivity. Qed.

Example adjustContrast_dark : adjustContrast default_config (of_Z 100) = of_Z 72.
Proof. reflexivity. Qed.

Example grayscale_of_red :
  convertToGrayscale (of_Z 255) (of_Z 0) (of_Z 0) = of_Z 85.
Proof. reflexivity. Qed.

Example grayscale_of_one :
  convertToGrayscale (of_Z 1) (of_Z 0) (of_Z 0)
  = S754_finite false 6004799503160661 (-54).
Proof. reflexivity. Qed.

Example positions_2_by_2 : positions 2 2 = [(0, 0); (1, 0); (0, 1); (1, 1)].
Proof. reflexivity. Qed.

(** A 12 by 6 canvas is sampled as 2 by 1: a white and a black sample. *)
Example filter_on_small_canvas :
  applyPixelatedFilter default_config {| width := 12; height := 6 |}
    (fun _ _ => [255; 255; 255; 255; 0; 0; 0; 255])
  = Returned
      [(SmallContext, DrawImage 0 0 2 1);
       (MainContext, ClearRect 0 0 12 6);
       (MainContext, SetFillStyle (rgba (of_Z 255) (of_Z 255) (of_Z 255) (of_Z 1)));
       (MainContext, BeginPath);
       (MainContext, Arc (of_Z 0) (of_Z 0) (div (of_Z 3) (of_Z 2))
                         (of_Z 0) (mul Math_PI (of_Z 2)));
       (MainContext, ClosePath);
       (MainContext, Fill);
       (MainContext, SetFillStyle (rgba (of_Z 0) (of_Z 0) (of_Z 0) (of_Z 1)));
       (MainContext, BeginPath);
       (MainContext, Arc (of_Z 6) (of_Z 0) (div (of_Z 3) (of_Z 2))
                         (of_Z 0) (mul Math_PI (of_Z 2)));
       (MainContext, ClosePath);
       (MainContext, Fill)].
Proof. vm_compute. reflexivity. Qed.

(** *** The sampled raster *)

Lemma to_unsigned_long_integer n :
  0 <= n < 2 ^ 53 -> to_unsigned_long (of_Z n) = n mod 2 ^ 32.
Proof.
  intros Hn. destruct (Z.eq_dec n 0) as [->|Hn0]; [reflexivity|].
  rewrite of_Z_integer by lia.
  destruct (integer_double_spec false n ltac:(lia)) as (m & e & E & He & Hm & _).
  rewrite E. unfold to_unsigned_long, cond_Zopp.
  rewrite (floor_scaled_eq _ _ (- e)) by lia.
  replace (e + - e) with 0 by lia. rewrite Z.mul_1_r, Hm.
  rewrite Z.div_mul by (apply Z.pow_nonzero; lia). reflexivity.
Qed.

Lemma floor_div_of_Z a b :
  0 <= a < 2 ^ 53 -> 0 < b < 2 ^ 53 ->
  to_unsigned_long (Math_floor (div (of_Z a) (of_Z b))) = (a / b) mod 2 ^ 32.
Proof.
  intros Ha Hb.
  destruct (Z.eq_dec a 0) as [->|Ha0].
  { rewrite (of_Z_integer b) by lia.
    destruct (integer_double_spec false b ltac:(lia)) as (m & e & E & _).
    rewrite E. reflexivity. }
  destruct (div_of_Z_floor a b ltac:(lia) Hb) as (m & e & E & Hfl).
  rewrite E. unfold Math_floor.
  assert (Hq : 0 <= a / b < 2 ^ 53).
  { split; [apply Z.div_pos; lia|].
    apply Z.le_lt_trans with a; [|lia].
    apply Z.div_le_upper_bound; nia. }
  destruct (Z.leb_spec 0 e).
  - unfold to_unsigned_long, cond_Zopp. now rewrite Hfl.
  - unfold cond_Zopp. rewrite Hfl.
    apply (to_unsigned_long_integer (a / b) Hq).
Qed.

Lemma set_dimension_floor_div default a b :
  0 <= a <= max_dimension -> 0 < b < 2 ^ 53 ->
  set_dimension default (Math_floor (div (of_Z a) (of_Z b))) = a / b.
Proof.
  intros Ha Hb. unfold set_dimension, max_dimension in *.
  rewrite floor_div_of_Z by lia.
  assert (Hq : 0 <= a / b <= a).
  { split; [apply Z.div_pos; lia|]. apply Z.div_le_upper_bound; nia. }
  rewrite Z.mod_small by lia.
  destruct (Z.leb_spec (a / b) 2147483647); [reflexivity | lia].
Qed.

(** Storing the floor of a number in a dimension attribute keeps the floor
    of its value, as long as that floor is a dimension. *)
Lemma set_dimension_floor default x :
  0 <= Qfloor (value x) <= max_dimension ->
  set_dimension default (Math_floor x) = Qfloor (value x).
Proof.
  destruct x as [s|s| |s m e]; try reflexivity.
  rewrite Qfloor_value. intros HF.
  destruct s.
  { pose proof (floor_scaled_neg (cond_Zopp true (Zpos m)) e
                  ltac:(simpl; lia)). lia. }
  unfold cond_Zopp in *. unfold set_dimension, Math_floor, max_dimension in *.
  destruct (Z.leb_spec 0 e) as [He|He].
  - unfold to_unsigned_long, cond_Zopp.
    rewrite Z.mod_small by lia.
    destruct (Z.leb_spec (floor_scaled (Zpos m) e) 2147483647);
      [reflexivity | lia].
  - unfold cond_Zopp. fold (of_Z (floor_scaled (Zpos m) e)).
    rewrite to_unsigned_long_integer by lia.
    rewrite Z.mod_small by lia.
    destruct (Z.leb_spec (floor_scaled (Zpos m) e) 2147483647);
      [reflexivity | lia].
Qed.

(** With a divisor [b / 2^j] the stored dimension is the floor of the
    exact quotient. *)
Lemma set_dimension_dyadic default W b j :
  0 <= W -> 0 <= j -> W * 2 ^ j < 2 ^ 53 -> 0 < b < 2 ^ 53 ->
  Qfloor (inject_Z W / value (dyadic b j)) <= max_dimension ->
  set_dimension default (Math_floor (div (of_Z W) (dyadic b j)))
  = Qfloor (inject_Z W / value (dyadic b j)).
Proof.
  intros HW Hj Hlt Hb. rewrite Qfloor_div_dyadic by assumption. intros Hmax.
  rewrite div_dyadic by assumption.
  pose proof (Z.pow_pos_nonneg 2 j ltac:(lia) Hj) as Hp.
  unfold set_dimension, max_dimension in *.
  rewrite floor_div_of_Z by nia.
  assert (0 <= W * 2 ^ j / b) by (apply Z.div_pos; nia).
  rewrite Z.mod_small by lia.
  destruct (Z.leb_spec (W * 2 ^ j / b) 2147483647); [reflexivity | lia].
Qed.

(** C1, as stated, fails for sizes that are not whole numbers.  With the
    pixel size 0.1 and no gap, a canvas 1 wide and 3 high gets a raster of
    10 by 30, while the floors of the quotients by the number the setting
    holds are 9 and 29.  With the sizes 0.1 and 0.2, a canvas 480 wide and
    3 high gets 1599 by 9, while the floors of 480/0.3 and 3/0.3 are 1600
    and 10. *)
Lemma raster_not_exact_at_tenth :
  tenth = div (of_Z 1) (of_Z 10) /\
  createSmallCanvas
    {| pixelSize := tenth; gapSize := of_Z 0; contrast := of_Z 2 |}
    {| width := 1; height := 3 |}
  = {| width := 10; height := 30 |} /\
  Qfloor (inject_Z 1 / (value tenth + value (of_Z 0))) = 9 /\
  Qfloor (inject_Z 3 / (value tenth + value (of_Z 0))) = 29 /\
  createSmallCanvas
    {| pixelSize := tenth; gapSize := div (of_Z 2) (of_Z 10);
       contrast := of_Z 2 |}
    {| width := 480; height := 3 |}
  = {| width := 1599; height := 9 |} /\
  Qfloor (inject_Z 480 / ((1 # 10) + (2 # 10))) = 1600 /\
  Qfloor (inject_Z 3 / ((1 # 10) + (2 # 10))) = 10 /\
  ~ raster_exact.
Proof.
  repeat (split; [vm_compute; reflexivity|]).
  intros H.
  specialize (H {| pixelSize := tenth; gapSize := of_Z 0; contrast := of_Z 2 |}
                {| width := 1; height := 3 |}).
  cbn [width height pixelSize gapSize] in H.
  specialize (H ltac:(unfold max_dimension; lia)
                ltac:(unfold max_dimension; lia)
                eq_refl eq_refl eq_refl).
  vm_compute in H. discriminate H.
Qed.

(** C1, amended.  Let [q] be the binary64 sum of the pixel size and the
    gap size.  For every canvas [W] by [H] and all sizes, the raster is
    the floor of the binary64 quotient of [W] by [q] wide and the floor of
    the binary64 quotient of [H] by [q] high, whenever these floors are
    dimensions (0 .. 2^31-1); a quotient that is infinite or [NaN] counts
    as 0, which is what the canvas stores.  These are the floors of the
    exact quotients [W / q] and [H / q] whenever [q] is [b / 2^j] for a
    whole number [b] below 2^53 with [W * 2^j] and [H * 2^j] below 2^53
    (as for 3 + 3, 2.5 + 0.5 or 1 + 0.5); for whole sizes [p] and [g]
    with [p + g > 0] they are [floor (W / (p+g))] and [floor (H / (p+g))].
    The 640 by 480 canvas with sizes 3 and 3 gives 106 by 80. *)
Theorem createSmallCanvas_raster (W H : Z) (p g c : number) :
  0 <= W <= max_dimension -> 0 <= H <= max_dimension ->
  (0 <= Qfloor (value (div (of_Z W) (add p g))) <= max_dimension ->
   0 <= Qfloor (value (div (of_Z H) (add p g))) <= max_dimension ->
   createSmallCanvas {| pixelSize := p; gapSize := g; contrast := c |}
                     {| width := W; height := H |}
   = {| width := Qfloor (value (div (of_Z W) (add p g)));
        height := Qfloor (value (div (of_Z H) (add p g))) |}) /\
  (forall b j,
      add p g = dyadic b j -> 0 < b < 2 ^ 53 -> 0 <= j ->
      W * 2 ^ j < 2 ^ 53 -> H * 2 ^ j < 2 ^ 53 ->
      Qfloor (inject_Z W / value (add p g)) <= max_dimension ->
      Qfloor (inject_Z H / value (add p g)) <= max_dimension ->
      createSmallCanvas {| pixelSize := p; gapSize := g; contrast := c |}
                        {| width := W; height := H |}
      = {| width := Qfloor (inject_Z W / value (add p g));
           height := Qfloor (inject_Z H / value (add p g)) |}) /\
  (forall wp wg,
      p = of_Z wp -> g = of_Z wg ->
      Z.abs wp < 2 ^ 53 -> Z.abs wg < 2 ^ 53 -> 0 < wp + wg < 2 ^ 53 ->
      createSmallCanvas {| pixelSize := p; gapSize := g; contrast := c |}
                        {| width := W; height := H |}
      = {| width := W / (wp + wg); height := H / (wp + wg) |}) /\
  createSmallCanvas default_config {| width := 640; height := 480 |}
  = {| width := 106; height := 80 |}.
Proof.
  intros HW HH. repeat split.
  - intros FW FH. unfold createSmallCanvas. cbn [pixelSize gapSize width height].
    now rewrite !set_dimension_floor by assumption.
  - intros b j E Hb Hj HWj HHj FW FH.
    unfold createSmallCanvas. cbn [pixelSize gapSize width height].
    rewrite E in *.
    now rewrite !set_dimension_dyadic by (assumption || lia).
  - intros wp wg -> -> Hp Hg Hpg.
    unfold createSmallCanvas. cbn [pixelSize gapSize width height].
    rewrite add_of_Z by lia.
    now rewrite !set_dimension_floor_div by lia.
Qed.

Lemma createSmallCanvas_raster_witness :
  createSmallCanvas
    {| pixelSize := of_Z 5; gapSize := of_Z 2; contrast := of_Z 2 |}
    {| width := 1920; height := 1080 |}
  = {| width := Qfloor (value (div (of_Z 1920) (add (of_Z 5) (of_Z 2))));
       height := Qfloor (value (div (of_Z 1080) (add (of_Z 5) (of_Z 2)))) |} /\
  createSmallCanvas
    {| pixelSize := of_Z 5; gapSize := of_Z 2; contrast := of_Z 2 |}
    {| width := 1920; height := 1080 |}
  = {| width := Qfloor (inject_Z 1920 / value (add (of_Z 5) (of_Z 2)));
       height := Qfloor (inject_Z 1080 / value (add (of_Z 5) (of_Z 2))) |} /\
  createSmallCanvas
    {| pixelSize := of_Z 5; gapSize := of_Z 2; contrast := of_Z 2 |}
    {| width := 1920; height := 1080 |}
  = {| width := 1920 / (5 + 2); height := 1080 / (5 + 2) |} /\
  createSmallCanvas default_config {| width := 640; height := 480 |}
  = {| width := 106; height := 80 |}.
Proof.
  destruct (createSmallCanvas_raster 1920 1080 (of_Z 5) (of_Z 2) (of_Z 2))
    as (A & B & C & D); try (unfold max_dimension; lia).
  split; [|split; [|split]].
  - apply A; vm_compute; split; discriminate.
  - apply (B 7 0); try lia; try reflexivity; vm_compute; discriminate.
  - apply (C 5 2); try reflexivity; simpl; lia.
  - exact D.
Defined.

(** Sizes that are not whole numbers but add up to one, or to a short
    binary fraction: 2.5 + 0.5 and 1 + 0.5 on the 640 by 480 canvas. *)
Example raster_half_sizes :
  createSmallCanvas
    {| pixelSize := dyadic 5 1; gapSize := dyadic 1 1; contrast := of_Z 2 |}
    {| width := 640; height := 480 |}
  = {| width := 213; height := 160 |} /\
  createSmallCanvas
    {| pixelSize := of_Z 1; gapSize := dyadic 1 1; contrast := of_Z 2 |}
    {| width := 640; height := 480 |}
  = {| width := 426; height := 320 |}.
Proof. split; vm_compute; reflexivity. Qed.

(** C2.  The renderer draws, for every raster, the samples in row-major
    order (the sample at [(x, y)] is the one numbered [y * width + x]), each
    as a fill colour followed by a filled circle; the filter clears the main
    canvas first.  With a raster of no width or no height the read-back of
    the small canvas throws before anything is drawn on the main canvas. *)
Theorem applyPixelatedFilter_trace
        (cfg : Config) (canvas : Canvas) (frame : Z -> Z -> list Z)
        (data : list Z) (smallCanvas : Canvas) :
  drawPixelatedImage cfg data smallCanvas
    = Some (rendering cfg data (width smallCanvas) (height smallCanvas)) /\
  (forall x y,
      0 <= x < width smallCanvas -> 0 <= y < height smallCanvas ->
      nth_error (positions (width smallCanvas) (height smallCanvas))
                (Z.to_nat (y * width smallCanvas + x)) = Some (x, y)) /\
  applyPixelatedFilter cfg canvas frame
    = (let small := createSmallCanvas cfg canvas in
       let sampled := (SmallContext, DrawImage 0 0 (width small) (height small)) in
       if (width small =? 0) || (height small =? 0)
       then Threw [sampled]
       else Returned
              (sampled
                 :: (MainContext, ClearRect 0 0 (width canvas) (height canvas))
                 :: rendering cfg (frame (width small) (height small))
                              (width small) (height small))).
Proof.
  split; [apply drawPixelatedImage_total|].
  split; [intros x y; apply nth_positions|].
  unfold applyPixelatedFilter, getImageData. cbv zeta.
  destruct ((width (createSmallCanvas cfg canvas) =? 0)
            || (height (createSmallCanvas cfg canvas) =? 0)); [reflexivity|].
  now rewrite drawPixelatedImage_total.
Qed.

Lemma applyPixelatedFilter_trace_witness :
  drawPixelatedImage default_config [10; 20; 30; 255; 40; 50; 60; 255]
                     {| width := 2; height := 1 |}
    = Some (rendering default_config [10; 20; 30; 255; 40; 50; 60; 255] 2 1) /\
  nth_error (positions 2 1) (Z.to_nat (0 * 2 + 1)) = Some (1, 0).
Proof.
  destruct (applyPixelatedFilter_trace
              default_config {| width := 12; height := 6 |}
              (fun _ _ => [10; 20; 30; 255; 40; 50; 60; 255])
              [10; 20; 30; 255; 40; 50; 60; 255]
              {| width := 2; height := 1 |}) as (Hdraw & Horder & _).
  split; [exact Hdraw|].
  apply (Horder 1 0); simpl; lia.
Defined.



(** *** A mid-gray frame *)

Lemma fill_styles_app t1 t2 :
  fill_styles (t1 ++ t2) = fill_styles t1 ++ fill_styles t2.
Proof. apply flat_map_app. Qed.

Lemma fill_styles_rendering cfg data w h :
  fill_styles (rendering cfg data w h) =
  map (fun xy =>
         let i := (snd xy * w + fst xy) * 4 in
         let v := gray_level cfg (read data i) (read data (i + 1)) (read data (i + 2)) in
         rgba v v v (of_Z 1))
      (positions w h).
Proof.
  unfold rendering. induction (positions w h) as [|xy l IH]; [reflexivity|].
  cbn [flat_map map]. rewrite fill_styles_app, IH. reflexivity.
Qed.

Lemma length_positions w h :
  List.length (positions w h) = (Z.to_nat h * Z.to_nat w)%nat.
Proof.
  unfold positions. generalize (range 0 (Z.to_nat w)) (length_range (Z.to_nat w) 0).
  intros row Hrow. generalize 0.
  induction (Z.to_nat h) as [|n IH]; intros lo; [reflexivity|].
  cbn [range flat_map]. rewrite length_app, length_map, IH, Hrow. reflexivity.
Qed.




(** *** Grayscale of three bytes *)

(** C5, as stated, fails: the grayscale of (1, 0, 0) is the binary64
    number nearest to 1/3, which is not 1/3. *)
Lemma grayscale_third_inexact : ~ grayscale_exact.
Proof.
  intros H. specialize (H 1 0 0 ltac:(lia) ltac:(lia) ltac:(lia)).
  vm_compute in H. discriminate H.
Qed.

Lemma grayscale_close_all :
  forallb grayscale_close (range 0 766) = true.
Proof. vm_compute. reflexivity. Qed.

(** C5, amended.  For bytes [r], [g], [b] the sum is formed exactly and
    divided by 3 in binary64 without truncation: the result is within
    2^-46 of [(r+g+b)/3], and equal to it when 3 divides the sum. *)
Theorem convertToGrayscale_bytes (r g b : Z) :
  0 <= r <= 255 -> 0 <= g <= 255 -> 0 <= b <= 255 ->
  convertToGrayscale (of_Z r) (of_Z g) (of_Z b) = div (of_Z (r + g + b)) (of_Z 3) /\
  (Qabs (value (convertToGrayscale (of_Z r) (of_Z g) (of_Z b))
         - inject_Z (r + g + b) / 3) <= 1 # 2 ^ 46)%Q /\
  ((r + g + b) mod 3 = 0 ->
   (value (convertToGrayscale (of_Z r) (of_Z g) (of_Z b))
    == inject_Z (r + g + b) / 3)%Q).
Proof.
  intros Hr Hg Hb.
  assert (E : convertToGrayscale (of_Z r) (of_Z g) (of_Z b)
              = div (of_Z (r + g + b)) (of_Z 3)).
  { unfold convertToGrayscale. now rewrite !add_of_Z by lia. }
  split; [exact E|]. rewrite E.
  pose proof grayscale_close_all as Hall.
  rewrite forallb_forall in Hall.
  specialize (Hall (r + g + b)).
  assert (Hin : In (r + g + b) (range 0 766)) by (apply in_range; lia).
  apply Hall in Hin. unfold grayscale_close in Hin.
  apply andb_prop in Hin. destruct Hin as [H1 H2]. split.
  - now apply Qle_bool_iff.
  - intros Hmod. rewrite Hmod in H2. now apply Qeq_bool_iff.
Qed.

Lemma convertToGrayscale_bytes_witness :
  convertToGrayscale (of_Z 10) (of_Z 20) (of_Z 33) = div (of_Z (10 + 20 + 33)) (of_Z 3) /\
  (Qabs (value (convertToGrayscale (of_Z 10) (of_Z 20) (of_Z 33))
         - inject_Z (10 + 20 + 33) / 3) <= 1 # 2 ^ 46)%Q /\
  (value (convertToGrayscale (of_Z 10) (of_Z 20) (of_Z 33))
   == inject_Z (10 + 20 + 33) / 3)%Q.
Proof.
  destruct (convertToGrayscale_bytes 10 20 33) as (Hsum & Hnear & Hexact);
    try lia.
  split; [exact Hsum|]. split; [exact Hnear|]. apply Hexact. reflexivity.
Defined.

End PixelateFacts.

(* ================================================================= *)
(** ** Properties of the recording handlers *)

Module RecordingFacts.
Import Recording.

(** Invariants of [step] hold in every state [run] ends in. *)
Lemma run_invariant (P : State -> Prop) :
  (forall s ev s', P s -> step s ev = Some s' -> P s') ->
  forall evs s s', P s -> run s evs = Some s' -> P s'.
Proof.
  intros Hstep evs.
  induction evs as [|ev evs IH]; simpl; intros s s' Hs Hrun.
  - now inversion Hrun; subst.
  - destruct (step s ev) as [s1|] eqn:E; [|discriminate].
    eapply IH; [eapply Hstep; eassumption | exact Hrun].
Qed.

Lemma reachable_invariant (P : State -> Prop) :
  (forall rd sd link, P (initial rd sd link)) ->
  (forall s ev s', P s -> step s ev = Some s' -> P s') ->
  forall s, reachable s -> P s.
Proof.
  intros Hinit Hstep s (rd & sd & link & evs & Hrun).
  eapply run_invariant; [exact Hstep | apply Hinit | exact Hrun].
Qed.

Lemma reachable_step s ev s' :
  reachable s -> step s ev = Some s' -> reachable s'.
Proof.
  intros (rd & sd & link & evs & Hrun) Hs.
  exists rd, sd, link, (evs ++ [ev]).
  revert Hrun. generalize (initial rd sd link).
  induction evs as [|e evs IH]; simpl; intros s0 Hrun.
  - inversion Hrun; subst. now rewrite Hs.
  - destruct (step s0 e); [now apply IH | discriminate].
Qed.

Lemma ondataavailable_frame data s :
  mediaRecorder (ondataavailable data s) = mediaRecorder s /\
  recordButton_disabled (ondataavailable data s) = recordButton_disabled s /\
  stopButton_disabled (ondataavailable data s) = stopButton_disabled s /\
  downloadLink (ondataavailable data s) = downloadLink s.
Proof. unfold ondataavailable. destruct (0 <? size data); simpl; auto. Qed.

Lemma buttons_follow_recorder_step s ev s' :
  buttons_follow_recorder s -> step s ev = Some s' -> buttons_follow_recorder s'.
Proof.
  unfold buttons_follow_recorder. intros Inv Hstep r Hr Hrec.
  destruct ev; simpl in Hstep.
  - destruct (mediaRecorder s); inversion Hstep; subst; simpl in *.
    inversion Hr; subst; discriminate.
  - destruct (mediaRecorder s) eqn:E; inversion Hstep; subst.
    unfold onDenied in Hr. rewrite E in Hr; discriminate.
  - inversion Hstep; subst; clear Hstep. unfold recordButton_click in *.
    destruct (mediaRecorder s) as [r0|] eqn:E; [|rewrite E in Hr; discriminate].
    unfold MediaRecorder_start in *.
    destruct (state r0) eqn:E0; simpl in *; auto.
    inversion Hr; subst. eauto.
  - inversion Hstep; subst; clear Hstep. unfold stopButton_click in *.
    destruct (mediaRecorder s) as [r0|] eqn:E; [|rewrite E in Hr; discriminate].
    simpl in *. inversion Hr; subst. unfold MediaRecorder_stop in Hrec.
    destruct (state r0) eqn:E0; simpl in Hrec; congruence.
  - destruct (mediaRecorder s) as [r0|] eqn:E; [|discriminate].
    destruct (state r0) eqn:E0; inversion Hstep; subst.
    destruct (ondataavailable_frame data s) as (H1 & H2 & H3 & _).
    rewrite H2, H3. rewrite H1 in Hr. eauto.
  - destruct (mediaRecorder s) as [r0|] eqn:E; [|discriminate].
    unfold take_pending in Hstep.
    destruct (pending_stops r0) eqn:E0; inversion Hstep; subst; clear Hstep.
    simpl in *.
    destruct (ondataavailable_frame data
                (with_recorder {| state := state r0; pending_stops := n |} s))
      as (H1 & H2 & H3 & _).
    rewrite H2, H3. rewrite H1 in Hr. simpl in *.
    inversion Hr; subst; simpl in *. eauto.
Qed.

Lemma reachable_buttons_follow_recorder s :
  reachable s -> buttons_follow_recorder s.
Proof.
  apply reachable_invariant.
  - intros rd sd link r Hr. discriminate.
  - apply buttons_follow_recorder_step.
Qed.

Lemma ondataavailable_positive data s :
  chunks_positive s -> chunks_positive (ondataavailable data s).
Proof.
  unfold chunks_positive, ondataavailable. intros H.
  destruct (0 <? size data) eqn:E; simpl; auto.
  apply Forall_app. split; auto. constructor; auto. now apply Z.ltb_lt.
Qed.

Lemma chunks_positive_step s ev s' :
  chunks_positive s -> step s ev = Some s' -> chunks_positive s'.
Proof.
  intros Inv Hstep. destruct ev; simpl in Hstep.
  - destruct (mediaRecorder s); inversion Hstep; subst. exact Inv.
  - destruct (mediaRecorder s); inversion Hstep; subst. exact Inv.
  - inversion Hstep; subst. unfold recordButton_click.
    destruct (mediaRecorder s) as [r|]; auto.
    destruct (MediaRecorder_start r); constructor.
  - inversion Hstep; subst. unfold stopButton_click.
    destruct (mediaRecorder s); auto.
  - destruct (mediaRecorder s) as [r|]; [|discriminate].
    destruct (state r); inversion Hstep; subst.
    now apply ondataavailable_positive.
  - destruct (mediaRecorder s) as [r|]; [|discriminate].
    destruct (take_pending r) as [r'|]; inversion Hstep; subst.
    unfold onstop, chunks_positive; simpl.
    now apply (ondataavailable_positive data (with_recorder r' s)).
Qed.



Lemma recordButton_click_resets s :
  mediaRecorder s <> None -> recordedChunks (recordButton_click s) = [].
Proof.
  intros H0. unfold recordButton_click.
  destruct (mediaRecorder s) as [r|]; [|congruence].
  destruct (MediaRecorder_start r); reflexivity.
Qed.

(** A session: camera granted, record, stop, and the queued task that
    delivers the recording and publishes the link. *)
Example one_recording :
  run (initial false true no_link)
      [Granted; RecordClick; StopClick; StopTask [Byte.x01; Byte.x02]]
  = Some {| mediaRecorder := Some {| state := inactive; pending_stops := 0 |};
            recordedChunks := [[Byte.x01; Byte.x02]];
            recordButton_disabled := false;
            stopButton_disabled := true;
            downloadLink :=
              {| href := Some (createObjectURL [Byte.x01; Byte.x02]);
                 download := Some "pixelated-recording.webm"%string;
                 display := Some "block"%string |} |}.
Proof. reflexivity. Qed.

(** A second start while recording: [start()] throws, the chunks are gone
    all the same, the buttons stay as they were. *)
Example start_while_recording :
  run (initial false true no_link)
      [Granted; RecordClick; DataAvailable [Byte.x01]; RecordClick]
  = Some {| mediaRecorder := Some {| state := recording; pending_stops := 0 |};
            recordedChunks := [];
            recordButton_disabled := true;
            stopButton_disabled := false;
            downloadLink := no_link |}.
Proof. reflexivity. Qed.

(** C6.  A start empties the chunk sequence, whatever it held: after the
    record handler has run with a recorder present the sequence is empty,
    also when the previous start was not followed by a stop and chunks
    have arrived since. *)
Theorem start_resets_chunks (s : State) (chunks : list Blob) :
  mediaRecorder s <> None ->
  recordedChunks (recordButton_click s) = [] /\
  recordedChunks (recordButton_click (deliver chunks (recordButton_click s))) = [].
Proof.
  pose proof recordButton_click_resets as Hreset.
  assert (Hkeep : forall s0, mediaRecorder s0 <> None ->
                             mediaRecorder (recordButton_click s0) <> None).
  { intros s0 H0. unfold recordButton_click.
    destruct (mediaRecorder s0) as [r|]; [|congruence].
    destruct (MediaRecorder_start r); simpl; discriminate. }
  assert (Hdel : forall cs s0, mediaRecorder (deliver cs s0) = mediaRecorder s0).
  { induction cs as [|c cs IH]; intros s0; simpl; auto.
    unfold deliver in IH. rewrite IH.
    apply (ondataavailable_frame c s0). }
  intros Hs. split.
  - now apply Hreset.
  - apply Hreset. rewrite Hdel. now apply Hkeep.
Qed.

Lemma start_resets_chunks_witness :
  recordedChunks
    (recordButton_click
       (deliver [[Byte.x01]; [Byte.x02; Byte.x03]]
          (recordButton_click (onGranted (initial false true no_link))))) = [].
Proof.
  apply (start_resets_chunks (onGranted (initial false true no_link))
           [[Byte.x01]; [Byte.x02; Byte.x03]]).
  simpl. discriminate.
Defined.




(** C8.  With the recorder initialised, in every reachable state a start
    leaves the record button disabled and the stop button enabled, and a
    stop leaves the record button enabled and the stop button disabled; in
    both cases exactly one of the two buttons is enabled. *)
Theorem buttons_in_lockstep (s : State) :
  reachable s ->
  mediaRecorder s <> None ->
  (recordButton_disabled (recordButton_click s) = true /\
   stopButton_disabled (recordButton_click s) = false) /\
  (recordButton_disabled (stopButton_click s) = false /\
   stopButton_disabled (stopButton_click s) = true) /\
  xorb (recordButton_disabled (recordButton_click s))
       (stopButton_disabled (recordButton_click s)) = true /\
  xorb (recordButton_disabled (stopButton_click s))
       (stopButton_disabled (stopButton_click s)) = true.
Proof.
  intros Hreach Hr.
  pose proof (reachable_buttons_follow_recorder s Hreach) as Inv.
  unfold buttons_follow_recorder in Inv.
  unfold recordButton_click, stopButton_click.
  destruct (mediaRecorder s) as [r|] eqn:E; [|congruence].
  unfold MediaRecorder_start.
  destruct (state r) eqn:Er; simpl.
  - repeat split; reflexivity.
  - destruct (Inv r eq_refl Er) as [H1 H2]. rewrite H1, H2.
    repeat split; reflexivity.
Qed.

Lemma buttons_in_lockstep_witness :
  let s := recordButton_click (onGranted (initial true true no_link)) in
  (recordButton_disabled (recordButton_click s) = true /\
   stopButton_disabled (recordButton_click s) = false) /\
  (recordButton_disabled (stopButton_click s) = false /\
   stopButton_disabled (stopButton_click s) = true) /\
  xorb (recordButton_disabled (recordButton_click s))
       (stopButton_disabled (recordButton_click s)) = true /\
  xorb (recordButton_disabled (stopButton_click s))
       (stopButton_disabled (stopButton_click s)) = true.
Proof.
  apply (buttons_in_lockstep
           (recordButton_click (onGranted (initial true true no_link)))).
  - exists true, true, no_link, [Granted; RecordClick]. reflexivity.
  - simpl. discriminate.
Defined.

(** C9.  Without a recorder both click handlers leave the whole state,
    chunks, buttons and link, as it was. *)
Theorem handlers_without_recorder (s : State) :
  mediaRecorder s = None ->
  recordButton_click s = s /\ stopButton_click s = s.
Proof.
  intros H. unfold recordButton_click, stopButton_click.
  rewrite H. split; reflexivity.
Qed.

Lemma handlers_without_recorder_witness :
  recordButton_click (initial false true no_link) = initial false true no_link /\
  stopButton_click (initial false true no_link) = initial false true no_link.
Proof.
  apply (handlers_without_recorder (initial false true no_link)).
  reflexivity.
Defined.

(** C10.  In every reachable state each stored chunk has a size above
    zero. *)
Theorem stored_chunks_positive (s : State) :
  reachable s ->
  Forall (fun b => 0 < size b) (recordedChunks s) /\
  forall data,
    recordedChunks (ondataavailable data s) =
    if 0 <? size data then recordedChunks s ++ [data] else recordedChunks s.
Proof.
  intros Hs. split.
  - revert s Hs. apply (reachable_invariant chunks_positive).
    + intros rd sd link. constructor.
    + apply chunks_positive_step.
  - intros data. unfold ondataavailable.
    now destruct (0 <? size data).
Qed.

Lemma stored_chunks_positive_witness :
  let s := ondataavailable [Byte.x07]
             (recordButton_click (onGranted (initial false true no_link))) in
  Forall (fun b => 0 < size b) (recordedChunks s) /\
  forall data,
    recordedChunks (ondataavailable data s) =
    if 0 <? size data then recordedChunks s ++ [data] else recordedChunks s.
Proof.
  apply (stored_chunks_positive
           (ondataavailable [Byte.x07]
              (recordButton_click (onGranted (initial false true no_link))))).
  exists false, true, no_link, [Granted; RecordClick; DataAvailable [Byte.x07]].
  reflexivity.
Defined.

End RecordingFacts.

(* ================================================================= *)
(** ** More on binary64 arithmetic *)

Module NumberMore.

Import NumberFacts.

(** *** Products of whole numbers *)

Lemma Zdigits2_lower m k : 0 <= k -> 2 ^ k <= m -> k < Zdigits2 m.
Proof.
  intros Hk Hm.
  assert (0 < 2 ^ k) by (apply Z.pow_pos_nonneg; lia).
  pose proof (Zdigits2_lt_pow m ltac:(lia)) as Hlt.
  pose proof (Zdigits2_nonneg m).
  destruct (Z.lt_ge_cases k (Zdigits2 m)) as [|Hge]; [assumption|].
  assert (2 ^ Zdigits2 m <= 2 ^ k) by (apply Z.pow_le_mono_r; lia). lia.
Qed.

(** When the exponent is not above the one the format asks for,
    [binary_round] does not align the mantissa first. *)
Lemma binary_round_no_align s m e :
  e <= fexp prec emax (Zpos (digits2_pos m) + e) ->
  binary_round prec emax s m e = binary_round_aux prec emax s (Zpos m) e loc_Exact.
Proof.
  intros He. unfold binary_round, shl_align.
  destruct (fexp prec emax (Zpos (digits2_pos m) + e) - e) eqn:E; try reflexivity.
  lia.
Qed.

(** Multiplying two whole numbers gives their product when it is below
    2^53. *)
Lemma mul_of_Z a b :
  0 <= a < 2 ^ 53 -> 0 <= b < 2 ^ 53 -> a * b < 2 ^ 53 ->
  mul (of_Z a) (of_Z b) = of_Z (a * b).
Proof.
  intros [Ha Ha53] [Hb Hb53] Hab.
  destruct (Z.eq_dec a 0) as [->|Ha0].
  { destruct (Z.eq_dec b 0) as [->|Hb0]; [reflexivity|].
    rewrite (of_Z_integer b) by lia.
    destruct (integer_double_spec false b ltac:(lia)) as (m & e & E & _).
    now rewrite E. }
  destruct (Z.eq_dec b 0) as [->|Hb0].
  { rewrite Z.mul_0_r, (of_Z_integer a) by lia.
    destruct (integer_double_spec false a ltac:(lia)) as (m & e & E & _).
    now rewrite E. }
  rewrite (of_Z_integer a), (of_Z_integer b), (of_Z_integer (a * b)) by nia.
  destruct (integer_double_spec false a ltac:(lia)) as (ma & ea & Ea & Hea & Hma & Hra).
  destruct (integer_double_spec false b ltac:(lia)) as (mb & eb & Eb & Heb & Hmb & Hrb).
  rewrite Ea, Eb. unfold mul, SFmul. cbn [xorb].
  assert (Hm : Zpos (ma * mb) = a * b * 2 ^ (- (ea + eb))).
  { rewrite Pos2Z.inj_mul, Hma, Hmb.
    replace (- (ea + eb)) with (- ea + - eb) by lia.
    rewrite Z.pow_add_r by lia. ring. }
  assert (Hd : Zdigits2 (Zpos (ma * mb)) = Zdigits2 (a * b) - (ea + eb)).
  { rewrite Hm, Zdigits2_mul_pow2 by nia. lia. }
  assert (Hbig : 104 < Zdigits2 (Zpos (ma * mb))).
  { apply Zdigits2_lower; [lia|]. rewrite Pos2Z.inj_mul.
    change (2 ^ 104) with (2 ^ 52 * 2 ^ 52). nia. }
  rewrite <- (binary_round_integer false (ma * mb) (ea + eb) (a * b)); try nia; try lia.
  symmetry. apply binary_round_no_align.
  change (Zpos (digits2_pos (ma * mb))) with (Zdigits2 (Zpos (ma * mb))).
  unfold fexp, emin, emax, prec. lia.
Qed.

End NumberMore.

(* ================================================================= *)
(** ** More on the pixelation pipeline *)

Module PixelateMore.

Import Pixelate NumberFacts PixelateFacts NumberMore.

(** *** Tests over all byte sums *)

Lemma forallb_range (f : Z -> bool) n lo s :
  forallb f (range lo n) = true -> lo <= s < lo + Z.of_nat n -> f s = true.
Proof.
  intros H Hs. rewrite forallb_forall in H. apply H. now apply in_range.
Qed.

Lemma same_eq x y : same x y = true -> x = y.
Proof.
  destruct x as [a|a| |a m e], y as [b|b| |b n f]; simpl; try discriminate.
  - intros H. apply Bool.eqb_prop in H. now subst.
  - intros H. apply Bool.eqb_prop in H. now subst.
  - reflexivity.
  - intros H. apply andb_prop in H. destruct H as [H H3].
    apply andb_prop in H. destruct H as [H1 H2].
    apply Bool.eqb_prop in H1. apply Pos.eqb_eq in H2. apply Z.eqb_eq in H3.
    now subst.
Qed.

Lemma grayscale_in_range_all : forallb grayscale_in_range (range 0 766) = true.
Proof. vm_compute. reflexivity. Qed.

Lemma saturation_all : forallb saturation (range 0 766) = true.
Proof. vm_compute. reflexivity. Qed.

Lemma gray_step_all : forallb gray_step (range 0 765) = true.
Proof. vm_compute. reflexivity. Qed.

Lemma grayscale_sum r g b :
  0 <= r <= 255 -> 0 <= g <= 255 -> 0 <= b <= 255 ->
  convertToGrayscale (of_Z r) (of_Z g) (of_Z b) = div (of_Z (r + g + b)) (of_Z 3).
Proof.
  intros Hr Hg Hb. unfold convertToGrayscale. now rewrite !add_of_Z by lia.
Qed.

Lemma grayscale_bounds r g b :
  0 <= r <= 255 -> 0 <= g <= 255 -> 0 <= b <= 255 ->
  let v := convertToGrayscale (of_Z r) (of_Z g) (of_Z b) in
  is_double v = true /\ leb (of_Z 0) v = true /\ leb v (of_Z 255) = true.
Proof.
  intros Hr Hg Hb v. unfold v. rewrite grayscale_sum by assumption.
  pose proof (forallb_range _ _ _ (r + g + b) grayscale_in_range_all ltac:(lia)) as H.
  unfold grayscale_in_range in H.
  apply andb_prop in H. destruct H as [H H3].
  apply andb_prop in H. destruct H as [H1 H2]. auto.
Qed.

(** X1.  The three channels weigh the same: for bytes, exchanging them
    does not change the grayscale. *)
Theorem convertToGrayscale_symmetric (r g b : Z) :
  0 <= r <= 255 -> 0 <= g <= 255 -> 0 <= b <= 255 ->
  convertToGrayscale (of_Z r) (of_Z g) (of_Z b)
    = convertToGrayscale (of_Z g) (of_Z r) (of_Z b) /\
  convertToGrayscale (of_Z r) (of_Z g) (of_Z b)
    = convertToGrayscale (of_Z b) (of_Z g) (of_Z r) /\
  convertToGrayscale (of_Z r) (of_Z g) (of_Z b)
    = convertToGrayscale (of_Z r) (of_Z b) (of_Z g).
Proof.
  intros Hr Hg Hb. rewrite !grayscale_sum by assumption.
  repeat split; do 2 f_equal; lia.
Qed.

Lemma convertToGrayscale_symmetric_witness :
  convertToGrayscale (of_Z 10) (of_Z 20) (of_Z 33)
    = convertToGrayscale (of_Z 20) (of_Z 10) (of_Z 33) /\
  convertToGrayscale (of_Z 10) (of_Z 20) (of_Z 33)
    = convertToGrayscale (of_Z 33) (of_Z 20) (of_Z 10) /\
  convertToGrayscale (of_Z 10) (of_Z 20) (of_Z 33)
    = convertToGrayscale (of_Z 10) (of_Z 33) (of_Z 20).
Proof.
  apply (convertToGrayscale_symmetric 10 20 33); lia.
Defined.

Lemma read_byte data i :
  bytes data -> 0 <= i < Z.of_nat (List.length data) ->
  exists v, read data i = of_Z v /\ 0 <= v <= 255.
Proof.
  intros Hb Hi. unfold read.
  destruct (Z.ltb_spec i 0); [lia|].
  destruct (nth_error data (Z.to_nat i)) as [v|] eqn:E.
  - exists v. split; [reflexivity|].
    unfold bytes in Hb. rewrite Forall_forall in Hb.
    apply Hb. eapply nth_error_In; eassumption.
  - apply nth_error_None in E. lia.
Qed.

Lemma gray_level_in_range cfg r g b :
  is_finite (contrast cfg) = true ->
  0 <= r <= 255 -> 0 <= g <= 255 -> 0 <= b <= 255 ->
  leb (of_Z 0) (gray_level cfg (of_Z r) (of_Z g) (of_Z b)) = true /\
  leb (gray_level cfg (of_Z r) (of_Z g) (of_Z b)) (of_Z 255) = true.
Proof.
  intros Hc Hr Hg Hb.
  destruct (grayscale_bounds r g b Hr Hg Hb) as (Hd & H0 & H255).
  rewrite <- adjustContrast_gray_level. unfold adjustContrast.
  apply clamp_in_range.
  apply add_not_nan; [reflexivity|].
  apply mul_not_nan; [|exact Hc].
  now apply sub_128_finite.
Qed.

(** *** Shape of the rendering *)

Lemma length_rendering cfg data w h :
  List.length (rendering cfg data w h) = (5 * List.length (positions w h))%nat.
Proof.
  unfold rendering. induction (positions w h) as [|xy l IH]; [reflexivity|].
  cbn [flat_map]. rewrite length_app, IH. simpl. lia.
Qed.

Lemma sample_call_rendering cfg data w h :
  forallb sample_call (rendering cfg data w h) = true.
Proof.
  unfold rendering. induction (positions w h) as [|xy l IH]; [reflexivity|].
  cbn [flat_map]. rewrite forallb_app, IH. reflexivity.
Qed.

Lemma centres_rendering cfg data w h :
  centres (rendering cfg data w h) =
  map (fun xy => (mul (of_Z (fst xy)) (add (pixelSize cfg) (gapSize cfg)),
                  mul (of_Z (snd xy)) (add (pixelSize cfg) (gapSize cfg))))
      (positions w h).
Proof.
  unfold rendering, centres. induction (positions w h) as [|xy l IH]; [reflexivity|].
  cbn [flat_map map]. rewrite flat_map_app. fold (centres). 
  unfold centres in *. rewrite IH. reflexivity.
Qed.

(** *** Reading past the buffer *)

Lemma gray_level_nan cfg r g : gray_level cfg r g NaN = NaN.
Proof.
  unfold gray_level.
  replace (add (add r g) NaN) with NaN by (destruct (add r g); reflexivity).
  reflexivity.
Qed.

Lemma read_past data i :
  Z.of_nat (List.length data) <= i -> read data i = NaN.
Proof.
  intros Hi. unfold read. destruct (Z.ltb_spec i 0); [reflexivity|].
  destruct (nth_error data (Z.to_nat i)) eqn:E; [|reflexivity].
  assert (nth_error data (Z.to_nat i) <> None) by congruence.
  apply nth_error_Some in H0. lia.
Qed.

Lemma nth_fill_styles cfg data w h x y :
  0 <= x < w -> 0 <= y < h ->
  nth_error (fill_styles (rendering cfg data w h)) (Z.to_nat (y * w + x)) =
  Some (let i := (y * w + x) * 4 in
        let v := gray_level cfg (read data i) (read data (i + 1)) (read data (i + 2)) in
        rgba v v v (of_Z 1)).
Proof.
  intros Hx Hy. rewrite fill_styles_rendering, nth_error_map, nth_positions by assumption.
  reflexivity.
Qed.

(** *** Alpha *)

Lemma read_same d1 d2 i k :
  same_colours d1 d2 -> 0 <= k < 3 -> read d1 (i * 4 + k) = read d2 (i * 4 + k).
Proof.
  intros Hs Hk. unfold read. destruct (Z.ltb_spec (i * 4 + k) 0); [reflexivity|].
  rewrite (Hs (Z.to_nat (i * 4 + k))); [reflexivity|].
  assert (E : (Z.to_nat (i * 4 + k) mod 4)%nat = Z.to_nat ((i * 4 + k) mod 4)).
  { rewrite Z2Nat.inj_mod by lia. reflexivity. }
  rewrite E. rewrite Z.add_comm, Z.mod_add by lia. rewrite Z.mod_small by lia. lia.
Qed.

Lemma disc_same cfg d1 d2 w x y :
  same_colours d1 d2 -> disc cfg d1 w x y = disc cfg d2 w x y.
Proof.
  intros Hs. unfold disc. cbv zeta.
  pose proof (read_same d1 d2 (y * w + x) 0 Hs ltac:(lia)) as R0.
  pose proof (read_same d1 d2 (y * w + x) 1 Hs ltac:(lia)) as R1.
  pose proof (read_same d1 d2 (y * w + x) 2 Hs ltac:(lia)) as R2.
  rewrite Z.add_0_r in R0. now rewrite R0, R1, R2.
Qed.

Lemma createSmallCanvas_integer W H p g c :
  0 <= W <= max_dimension -> 0 <= H <= max_dimension ->
  Z.abs p < 2 ^ 53 -> Z.abs g < 2 ^ 53 -> 0 < p + g < 2 ^ 53 ->
  createSmallCanvas {| pixelSize := of_Z p; gapSize := of_Z g; contrast := c |}
                    {| width := W; height := H |}
    = {| width := W / (p + g); height := H / (p + g) |}.
Proof.
  intros HW HH Hp Hg Hpg.
  unfold createSmallCanvas. cbn [pixelSize gapSize width height].
  rewrite add_of_Z by lia.
  now rewrite !set_dimension_floor_div by lia.
Qed.

Lemma default_gray_level r g b :
  0 <= r <= 255 -> 0 <= g <= 255 -> 0 <= b <= 255 ->
  gray_level default_config (of_Z r) (of_Z g) (of_Z b) = default_gray (r + g + b).
Proof.
  intros Hr Hg Hb. rewrite <- adjustContrast_gray_level.
  now rewrite grayscale_sum by assumption.
Qed.

Lemma default_gray_monotone_sum n : forall s,
  0 <= s -> s + Z.of_nat n <= 765 ->
  (value (default_gray s) <= value (default_gray (s + Z.of_nat n)))%Q.
Proof.
  induction n as [|n IH]; intros s Hs Hn.
  - rewrite Z.add_0_r. apply Qle_refl.
  - apply Qle_trans with (value (default_gray (s + 1))).
    + apply Qle_bool_iff.
      apply (forallb_range gray_step 765 0 s gray_step_all). lia.
    + replace (s + Z.of_nat (S n)) with (s + 1 + Z.of_nat n) by lia.
      apply IH; lia.
Qed.

(** X2.  Every colour drawn from a full buffer of bytes is a gray between 0
    and 255 with full opacity, whatever finite contrast factor is set. *)
Theorem colours_of_byte_buffer (cfg : Config) (data : list Z) (smallCanvas : Canvas) :
  is_finite (contrast cfg) = true ->
  bytes data ->
  4 * (width smallCanvas * height smallCanvas) <= Z.of_nat (List.length data) ->
  exists t,
    drawPixelatedImage cfg data smallCanvas = Some t /\
    Forall (fun c => exists v, c = rgba v v v (of_Z 1) /\
                               leb (of_Z 0) v = true /\ leb v (of_Z 255) = true)
           (fill_styles t).
Proof.
  intros Hc Hb Hlen.
  exists (rendering cfg data (width smallCanvas) (height smallCanvas)).
  split; [apply drawPixelatedImage_total|].
  rewrite fill_styles_rendering. apply Forall_forall.
  intros c Hin. apply in_map_iff in Hin.
  destruct Hin as ([x y] & <- & Hxy). cbn [fst snd].
  apply in_positions in Hxy.
  set (i := (y * width smallCanvas + x) * 4).
  assert (Hi : 0 <= i /\ i + 2 < Z.of_nat (List.length data)) by (unfold i; nia).
  destruct (read_byte data i Hb ltac:(lia)) as (r & Er & Hr).
  destruct (read_byte data (i + 1) Hb ltac:(lia)) as (g & Eg & Hg).
  destruct (read_byte data (i + 2) Hb ltac:(lia)) as (b & Eb & Hbb).
  cbv zeta. rewrite Er, Eg, Eb.
  eexists. split; [reflexivity|].
  now apply gray_level_in_range.
Qed.

Lemma colours_of_byte_buffer_witness :
  exists t,
    drawPixelatedImage default_config [10; 200; 30; 255; 250; 250; 250; 0]
                       {| width := 2; height := 1 |} = Some t /\
    Forall (fun c => exists v, c = rgba v v v (of_Z 1) /\
                               leb (of_Z 0) v = true /\ leb v (of_Z 255) = true)
           (fill_styles t).
Proof.
  apply (colours_of_byte_buffer default_config
           [10; 200; 30; 255; 250; 250; 250; 0] {| width := 2; height := 1 |}).
  - reflexivity.
  - repeat constructor; lia.
  - simpl. lia.
Defined.

(** X3.  With the contrast factor 2 of line 14, a sample is drawn black when
    its three bytes sum to at most 192, white when they sum to at least 575,
    and strictly between black and white otherwise. *)
Theorem default_contrast_saturates (r g b : Z) :
  0 <= r <= 255 -> 0 <= g <= 255 -> 0 <= b <= 255 ->
  let v := gray_level default_config (of_Z r) (of_Z g) (of_Z b) in
  (r + g + b <= 192 -> v = of_Z 0) /\
  (575 <= r + g + b -> v = of_Z 255) /\
  (192 < r + g + b < 575 -> leb v (of_Z 0) = false /\ leb (of_Z 255) v = false).
Proof.
  intros Hr Hg Hb v. unfold v. rewrite default_gray_level by assumption.
  pose proof (forallb_range saturation 766 0 (r + g + b) saturation_all ltac:(lia)) as H.
  unfold saturation in H.
  destruct (Z.leb_spec (r + g + b) 192) as [Hlow|Hlow].
  - apply same_eq in H. repeat split; intros; try lia. exact H.
  - destruct (Z.leb_spec 575 (r + g + b)) as [Hhigh|Hhigh].
    + apply same_eq in H. repeat split; intros; try lia. exact H.
    + apply andb_prop in H. destruct H as [H1 H2].
      apply negb_true_iff in H1. apply negb_true_iff in H2.
      repeat split; intros; try lia; assumption.
Qed.

Lemma default_contrast_saturates_witness :
  gray_level default_config (of_Z 60) (of_Z 70) (of_Z 62) = of_Z 0 /\
  gray_level default_config (of_Z 200) (of_Z 190) (of_Z 185) = of_Z 255 /\
  leb (gray_level default_config (of_Z 100) (of_Z 100) (of_Z 100)) (of_Z 0) = false /\
  leb (of_Z 255) (gray_level default_config (of_Z 100) (of_Z 100) (of_Z 100)) = false.
Proof.
  destruct (default_contrast_saturates 60 70 62) as (Hlow & _ & _); try lia.
  destruct (default_contrast_saturates 200 190 185) as (_ & Hhigh & _); try lia.
  destruct (default_contrast_saturates 100 100 100) as (_ & _ & Hmid); try lia.
  split; [apply Hlow; lia|]. split; [apply Hhigh; lia|]. apply Hmid. lia.
Defined.

(** X4.  With the settings of lines 9-14 a sample that is at least as bright
    in each channel is never drawn darker. *)
Theorem brighter_is_never_darker (r g b r' g' b' : Z) :
  0 <= r <= r' -> r' <= 255 -> 0 <= g <= g' -> g' <= 255 -> 0 <= b <= b' -> b' <= 255 ->
  (value (gray_level default_config (of_Z r) (of_Z g) (of_Z b))
   <= value (gray_level default_config (of_Z r') (of_Z g') (of_Z b')))%Q.
Proof.
  intros Hr Hr' Hg Hg' Hb Hb'.
  rewrite !default_gray_level by lia.
  replace (r' + g' + b')
    with (r + g + b + Z.of_nat (Z.to_nat (r' + g' + b' - (r + g + b)))) by lia.
  apply default_gray_monotone_sum; lia.
Qed.

Lemma brighter_is_never_darker_witness :
  (value (gray_level default_config (of_Z 90) (of_Z 100) (of_Z 110))
   <= value (gray_level default_config (of_Z 91) (of_Z 100) (of_Z 180)))%Q.
Proof.
  apply (brighter_is_never_darker 90 100 110 91 100 180); lia.
Defined.

(** X5.  A contrast factor of zero flattens the picture: every grayscale in
    [[0,255]] becomes 128. *)
Theorem zero_contrast_flattens (cfg : Config) (g : number) :
  SFeqb (contrast cfg) (of_Z 0) = true ->
  is_double g = true ->
  leb (of_Z 0) g = true -> leb g (of_Z 255) = true ->
  adjustContrast cfg g = of_Z 128.
Proof.
  intros Hc Hg H0 H255.
  pose proof (sub_128_finite g Hg H0 H255) as Hf.
  unfold adjustContrast.
  destruct (contrast cfg) as [s|s| |s m e]; try (destruct s; discriminate Hc);
    try discriminate Hc.
  destruct (sub g (of_Z 128)) as [s1|s1| |s1 m1 e1]; try discriminate Hf;
    destruct s, s1; reflexivity.
Qed.

Lemma zero_contrast_flattens_witness :
  adjustContrast {| pixelSize := of_Z 3; gapSize := of_Z 3; contrast := of_Z 0 |}
                 (of_Z 231) = of_Z 128.
Proof.
  apply (zero_contrast_flattens
           {| pixelSize := of_Z 3; gapSize := of_Z 3; contrast := of_Z 0 |}
           (of_Z 231)); reflexivity.
Defined.

(** X6.  The alpha bytes are never read: two buffers that differ only there
    are drawn alike. *)
Theorem alpha_is_ignored (cfg : Config) (d1 d2 : list Z) (smallCanvas : Canvas) :
  same_colours d1 d2 ->
  drawPixelatedImage cfg d1 smallCanvas = drawPixelatedImage cfg d2 smallCanvas.
Proof.
  intros Hs. rewrite !drawPixelatedImage_total. f_equal.
  unfold rendering. apply flat_map_ext. intros xy. now apply disc_same.
Qed.

Lemma alpha_is_ignored_witness :
  drawPixelatedImage default_config [10; 20; 30; 255] {| width := 1; height := 1 |}
  = drawPixelatedImage default_config [10; 20; 30; 0] {| width := 1; height := 1 |}.
Proof.
  apply (alpha_is_ignored default_config [10; 20; 30; 255] [10; 20; 30; 0]
           {| width := 1; height := 1 |}).
  intros n Hn.
  destruct n as [|[|[|[|n]]]]; try reflexivity.
  exfalso. apply Hn. reflexivity.
Defined.

(** X7.  A buffer that is too short raises nothing: the sample whose blue
    byte lies past its end is drawn with the colour [NaN]. *)
Theorem missing_bytes_give_NaN
        (cfg : Config) (data : list Z) (smallCanvas : Canvas) (x y : Z) :
  0 <= x < width smallCanvas -> 0 <= y < height smallCanvas ->
  Z.of_nat (List.length data) <= (y * width smallCanvas + x) * 4 + 2 ->
  exists t,
    drawPixelatedImage cfg data smallCanvas = Some t /\
    nth_error (fill_styles t) (Z.to_nat (y * width smallCanvas + x))
      = Some (rgba NaN NaN NaN (of_Z 1)).
Proof.
  intros Hx Hy Hlen.
  exists (rendering cfg data (width smallCanvas) (height smallCanvas)).
  split; [apply drawPixelatedImage_total|].
  rewrite nth_fill_styles by assumption. cbv zeta.
  rewrite (read_past data ((y * width smallCanvas + x) * 4 + 2)) by lia.
  now rewrite gray_level_nan.
Qed.

Lemma missing_bytes_give_NaN_witness :
  exists t,
    drawPixelatedImage default_config [10; 20; 30; 255; 40]
                       {| width := 2; height := 1 |} = Some t /\
    nth_error (fill_styles t) (Z.to_nat (0 * 2 + 1))
      = Some (rgba NaN NaN NaN (of_Z 1)).
Proof.
  apply (missing_bytes_give_NaN default_config [10; 20; 30; 255; 40]
           {| width := 2; height := 1 |} 1 0); simpl; lia.
Defined.

(** X8.  Whatever the buffer holds, the sample loop returns, makes five
    calls per sample, all of them on the main canvas, and none of them a
    clear or a copy of the video. *)
Theorem drawPixelatedImage_shape (cfg : Config) (data : list Z) (smallCanvas : Canvas) :
  exists t,
    drawPixelatedImage cfg data smallCanvas = Some t /\
    List.length t
      = (5 * (Z.to_nat (height smallCanvas) * Z.to_nat (width smallCanvas)))%nat /\
    forallb sample_call t = true.
Proof.
  exists (rendering cfg data (width smallCanvas) (height smallCanvas)).
  split; [apply drawPixelatedImage_total|]. split.
  - now rewrite length_rendering, length_positions.
  - apply sample_call_rendering.
Qed.

(** X9.  With whole sizes the circles are centred on whole coordinates, a
    cell apart, and every centre lies at least one cell inside the right
    and bottom edges of the canvas. *)
Theorem circles_inside_canvas (W H p g : Z) (c : number) (data : list Z) :
  0 <= W <= max_dimension -> 0 <= H <= max_dimension ->
  Z.abs p < 2 ^ 53 -> Z.abs g < 2 ^ 53 -> 0 < p + g < 2 ^ 53 ->
  let cfg := {| pixelSize := of_Z p; gapSize := of_Z g; contrast := c |} in
  let small := createSmallCanvas cfg {| width := W; height := H |} in
  centres (rendering cfg data (width small) (height small))
    = map (fun xy => (of_Z (fst xy * (p + g)), of_Z (snd xy * (p + g))))
          (positions (width small) (height small)) /\
  forall x y, In (x, y) (positions (width small) (height small)) ->
              0 <= x * (p + g) <= W - (p + g) /\ 0 <= y * (p + g) <= H - (p + g).
Proof.
  intros HW HH Hp Hg Hpg cfg small.
  unfold small, cfg. rewrite createSmallCanvas_integer by assumption.
  cbn [width height].
  assert (Hin : forall x y, In (x, y) (positions (W / (p + g)) (H / (p + g))) ->
                0 <= x * (p + g) <= W - (p + g) /\ 0 <= y * (p + g) <= H - (p + g)).
  { intros x y Hxy. apply in_positions in Hxy.
    pose proof (Z.mul_div_le W (p + g) ltac:(lia)).
    pose proof (Z.mul_div_le H (p + g) ltac:(lia)).
    nia. }
  split; [|exact Hin].
  rewrite centres_rendering. cbn [pixelSize gapSize].
  rewrite add_of_Z by lia.
  apply map_ext_in. intros [x y] Hxy. cbn [fst snd].
  destruct (Hin x y Hxy) as [Hx Hy].
  apply in_positions in Hxy. unfold max_dimension in *.
  assert (W / (p + g) <= W) by (apply Z.div_le_upper_bound; nia).
  assert (H / (p + g) <= H) by (apply Z.div_le_upper_bound; nia).
  rewrite !mul_of_Z by lia. reflexivity.
Qed.

Lemma circles_inside_canvas_witness :
  let cfg := {| pixelSize := of_Z 3; gapSize := of_Z 3; contrast := of_Z 2 |} in
  let small := createSmallCanvas cfg {| width := 13; height := 7 |} in
  centres (rendering cfg [] (width small) (height small))
    = map (fun xy => (of_Z (fst xy * (3 + 3)), of_Z (snd xy * (3 + 3))))
          (positions (width small) (height small)) /\
  forall x y, In (x, y) (positions (width small) (height small)) ->
              0 <= x * (3 + 3) <= 13 - (3 + 3) /\ 0 <= y * (3 + 3) <= 7 - (3 + 3).
Proof.
  apply (circles_inside_canvas 13 7 3 3 (of_Z 2) []); unfold max_dimension; lia.
Defined.

(** X10.  With whole sizes the filter draws exactly when the canvas holds at
    least one cell each way; otherwise the read-back of the empty raster
    throws and the main canvas is not even cleared. *)
Theorem filter_needs_one_cell
        (W H p g : Z) (c : number) (frame : Z -> Z -> list Z) :
  0 <= W <= max_dimension -> 0 <= H <= max_dimension ->
  Z.abs p < 2 ^ 53 -> Z.abs g < 2 ^ 53 -> 0 < p + g < 2 ^ 53 ->
  let cfg := {| pixelSize := of_Z p; gapSize := of_Z g; contrast := c |} in
  let w := W / (p + g) in
  let h := H / (p + g) in
  applyPixelatedFilter cfg {| width := W; height := H |} frame
    = if (W <? p + g) || (H <? p + g)
      then Threw [(SmallContext, DrawImage 0 0 w h)]
      else Returned ((SmallContext, DrawImage 0 0 w h)
                       :: (MainContext, ClearRect 0 0 W H)
                       :: rendering cfg (frame w h) w h).
Proof.
  intros HW HH Hp Hg Hpg cfg w h.
  unfold applyPixelatedFilter, getImageData, drawVideoOnSmallCanvas, clearMainCanvas.
  unfold cfg. rewrite createSmallCanvas_integer by assumption.
  cbn [width height]. fold w h.
  assert (Ew : (w =? 0) = (W <? p + g)).
  { unfold w. destruct (Z.ltb_spec W (p + g)) as [Hlt|Hge].
    - rewrite Z.div_small by lia. reflexivity.
    - apply Z.eqb_neq.
      assert (1 <= W / (p + g)) by (apply Z.div_le_lower_bound; lia). lia. }
  assert (Eh : (h =? 0) = (H <? p + g)).
  { unfold h. destruct (Z.ltb_spec H (p + g)) as [Hlt|Hge].
    - rewrite Z.div_small by lia. reflexivity.
    - apply Z.eqb_neq.
      assert (1 <= H / (p + g)) by (apply Z.div_le_lower_bound; lia). lia. }
  rewrite Ew, Eh.
  destruct ((W <? p + g) || (H <? p + g)); [reflexivity|].
  now rewrite drawPixelatedImage_total.
Qed.

Lemma filter_needs_one_cell_witness :
  applyPixelatedFilter {| pixelSize := of_Z 3; gapSize := of_Z 3; contrast := of_Z 2 |}
                       {| width := 5; height := 480 |} (fun _ _ => [])
    = Threw [(SmallContext, DrawImage 0 0 0 80)].
Proof.
  apply (filter_needs_one_cell 5 480 3 3 (of_Z 2) (fun _ _ => []));
    unfold max_dimension; lia.
Defined.

Lemma drawToCanvas_default frame :
  drawToCanvas default_config frame
  = Returned ((SmallContext, DrawImage 0 0 106 80)
                :: (MainContext, ClearRect 0 0 640 480)
                :: rendering default_config (frame 106 80) 106 80).
Proof.
  unfold drawToCanvas, applyPixelatedFilter.
  change (createSmallCanvas default_config {| width := 640; height := 480 |})
    with {| width := 106; height := 80 |}.
  cbn [getImageData width height Z.eqb orb].
  now rewrite drawPixelatedImage_total.
Qed.

(** X11.  With the settings of the script the animation never stops by
    itself: every frame is drawn, whatever the camera shows, with 8480
    circles in 42402 calls. *)
Theorem animation_never_stops (frames : list (Z -> Z -> list Z)) :
  exists t,
    animate default_config frames = (t, List.length frames) /\
    Z.of_nat (List.length (fill_styles t)) = 8480 * Z.of_nat (List.length frames) /\
    Z.of_nat (List.length t) = 42402 * Z.of_nat (List.length frames).
Proof.
  induction frames as [|frame frames (t & Et & Hs & Hl)].
  - exists []. repeat split.
  - eexists. cbn [animate]. rewrite drawToCanvas_default, Et.
    split; [reflexivity|].
    assert (Hp : Z.of_nat (List.length (positions 106 80)) = 8480)
      by (rewrite length_positions; reflexivity).
    split.
    + assert (Hskip : forall a b c d e f t0,
                 fill_styles ((SmallContext, DrawImage a b c d)
                                :: (MainContext, ClearRect e f 640 480) :: t0)
                 = fill_styles t0) by reflexivity.
      rewrite fill_styles_app, Hskip.
      rewrite length_app, fill_styles_rendering, length_map.
      cbn [List.length]. lia.
    + rewrite length_app. cbn [List.length].
      rewrite length_rendering. lia.
Qed.

End PixelateMore.

(* ================================================================= *)
(** ** More on the recording handlers *)

Module RecordingMore.

Import Recording RecordingFacts.

Lemma ondataavailable_chunks data s :
  recordedChunks (ondataavailable data s)
  = recordedChunks s ++ filter nonempty [data].
Proof.
  unfold ondataavailable, nonempty. simpl.
  destruct (0 <? size data); simpl; [reflexivity | now rewrite app_nil_r].
Qed.

Lemma one_enabled_step s ev s' :
  one_enabled s -> step s ev = Some s' -> one_enabled s'.
Proof.
  unfold one_enabled. intros Inv Hstep. destruct ev; simpl in Hstep.
  - destruct (mediaRecorder s); inversion Hstep; subst. exact Inv.
  - destruct (mediaRecorder s); inversion Hstep; subst. exact Inv.
  - inversion Hstep; subst. unfold recordButton_click.
    destruct (mediaRecorder s) as [r|]; [|exact Inv].
    destruct (MediaRecorder_start r); simpl; auto.
  - inversion Hstep; subst. unfold stopButton_click.
    destruct (mediaRecorder s); simpl; auto.
  - destruct (mediaRecorder s) as [r|]; [|discriminate].
    destruct (state r); inversion Hstep; subst.
    destruct (ondataavailable_frame data s) as (_ & H2 & H3 & _).
    now rewrite H2, H3.
  - destruct (mediaRecorder s) as [r|]; [|discriminate].
    destruct (take_pending r) as [r'|]; inversion Hstep; subst.
    simpl.
    destruct (ondataavailable_frame data (with_recorder r' s)) as (_ & H2 & H3 & _).
    now rewrite H2, H3.
Qed.

(** X12.  If the page starts with exactly one of the two buttons enabled,
    exactly one is enabled in every state it can reach. *)
Theorem one_button_enabled
        (rd sd : bool) (link : Link) (evs : list event) (s : State) :
  xorb rd sd = true ->
  run (initial rd sd link) evs = Some s ->
  one_enabled s.
Proof.
  intros Hinit Hrun.
  apply (run_invariant one_enabled one_enabled_step evs (initial rd sd link) s);
    assumption.
Qed.

Lemma one_button_enabled_witness :
  one_enabled
    (stopButton_click
       (recordButton_click (recordButton_click (onGranted (initial false true no_link))))).
Proof.
  apply (one_button_enabled false true no_link
           [Granted; RecordClick; RecordClick; StopClick]); reflexivity.
Defined.

Lemma run_without_recorder evs : forall s s',
  mediaRecorder s = None -> ~ In Granted evs ->
  run s evs = Some s' -> s' = s.
Proof.
  induction evs as [|ev evs IH]; simpl; intros s s' Hr Hn Hrun.
  - now inversion Hrun.
  - assert (Hs : step s ev = Some s \/ step s ev = None).
    { destruct ev; simpl; rewrite ?Hr; auto.
      + exfalso. apply Hn. now left.
      + left. unfold recordButton_click. now rewrite Hr.
      + left. unfold stopButton_click. now rewrite Hr. }
    destruct Hs as [Hs|Hs]; rewrite Hs in Hrun; [|discriminate].
    apply (IH s s' Hr); [|exact Hrun].
    intros Hin. apply Hn. now right.
Qed.

(** X13.  As long as the camera has not been granted nothing changes,
    whatever is clicked: the state stays the initial one. *)
Theorem nothing_without_camera
        (rd sd : bool) (link : Link) (evs : list event) (s : State) :
  ~ In Granted evs ->
  run (initial rd sd link) evs = Some s ->
  s = initial rd sd link.
Proof.
  intros Hn Hrun. now apply (run_without_recorder evs (initial rd sd link) s).
Qed.

Lemma nothing_without_camera_witness :
  run (initial false true no_link) [Denied; RecordClick; StopClick; RecordClick]
  = Some (initial false true no_link).
Proof.
  destruct (run (initial false true no_link)
              [Denied; RecordClick; StopClick; RecordClick]) as [s|] eqn:E.
  - f_equal.
    apply (nothing_without_camera false true no_link
             [Denied; RecordClick; StopClick; RecordClick] s); [|exact E].
    intros [H|[H|[H|[H|[]]]]]; discriminate H.
  - discriminate E.
Defined.

Lemma link_kept_run evs : forall s s',
  (forall d, ~ In (StopTask d) evs) ->
  run s evs = Some s' -> downloadLink s' = downloadLink s.
Proof.
  induction evs as [|ev evs IH]; simpl; intros s s' Hn Hrun.
  - now inversion Hrun.
  - destruct (step s ev) as [s1|] eqn:E; [|discriminate].
    rewrite (IH s1 s'); [|intros d Hin; apply (Hn d); now right|exact Hrun].
    destruct ev; simpl in E.
    + destruct (mediaRecorder s); inversion E; subst; reflexivity.
    + destruct (mediaRecorder s); inversion E; subst; reflexivity.
    + inversion E; subst. unfold recordButton_click.
      destruct (mediaRecorder s) as [r|]; [|reflexivity].
      destruct (MediaRecorder_start r); reflexivity.
    + inversion E; subst. unfold stopButton_click.
      destruct (mediaRecorder s); reflexivity.
    + destruct (mediaRecorder s) as [r|]; [|discriminate].
      destruct (state r); inversion E; subst.
      apply (ondataavailable_frame data s).
    + exfalso. apply (Hn data). now left.
Qed.

(** X14.  The download link is touched by nothing but the stop task: until
    one has run the link is as the page declared it. *)
Theorem link_waits_for_stop
        (rd sd : bool) (link : Link) (evs : list event) (s : State) :
  (forall d, ~ In (StopTask d) evs) ->
  run (initial rd sd link) evs = Some s ->
  downloadLink s = link.
Proof.
  intros Hn Hrun. now apply (link_kept_run evs (initial rd sd link) s).
Qed.

Lemma link_waits_for_stop_witness :
  downloadLink
    (stopButton_click
       (ondataavailable [Byte.x01]
          (recordButton_click (onGranted (initial false true no_link)))))
  = no_link.
Proof.
  apply (link_waits_for_stop false true no_link
           [Granted; RecordClick; DataAvailable [Byte.x01]; StopClick]).
  - intros d [H|[H|[H|[H|[]]]]]; discriminate H.
  - reflexivity.
Defined.

(** *** A whole session *)

Lemma size_zero b : size b <= 0 -> b = [].
Proof. unfold size. destruct b; simpl; [reflexivity | lia]. Qed.

Lemma concat_nonempty chunks :
  List.concat (filter nonempty chunks) = List.concat chunks.
Proof.
  induction chunks as [|b l IH]; [reflexivity|]. simpl.
  unfold nonempty at 1. destruct (Z.ltb_spec 0 (size b)) as [Hp|Hz].
  - simpl. now rewrite IH.
  - rewrite (size_zero b Hz), IH. reflexivity.
Qed.

Lemma size_concat chunks : size (List.concat chunks) = total_size chunks.
Proof.
  unfold total_size, size. induction chunks as [|b l IH]; [reflexivity|].
  simpl. rewrite length_app, Nat2Z.inj_add, IH. reflexivity.
Qed.

Lemma size_app a b : size (a ++ b) = size a + size b.
Proof. unfold size. rewrite length_app. lia. Qed.

Lemma deliver_frame ds : forall s,
  mediaRecorder (deliver ds s) = mediaRecorder s /\
  recordButton_disabled (deliver ds s) = recordButton_disabled s /\
  stopButton_disabled (deliver ds s) = stopButton_disabled s /\
  downloadLink (deliver ds s) = downloadLink s /\
  recordedChunks (deliver ds s) = recordedChunks s ++ filter nonempty ds.
Proof.
  unfold deliver.
  induction ds as [|d ds IH]; intros s; simpl fold_left.
  - simpl. now rewrite app_nil_r.
  - destruct (IH (ondataavailable d s)) as (H1 & H2 & H3 & H4 & H5).
    destruct (ondataavailable_frame d s) as (F1 & F2 & F3 & F4).
    repeat split; try congruence.
    rewrite H5, ondataavailable_chunks, <- app_assoc.
    simpl. now destruct (nonempty d).
Qed.

Lemma run_deliver ds : forall s rest r,
  mediaRecorder s = Some r -> state r = recording ->
  run s (map DataAvailable ds ++ rest) = run (deliver ds s) rest.
Proof.
  induction ds as [|d ds IH]; intros s rest r Hr Hrec; [reflexivity|].
  simpl. rewrite Hr, Hrec.
  apply (IH _ rest r); [|exact Hrec].
  now rewrite (proj1 (ondataavailable_frame d s)).
Qed.

(** X15.  One session from an idle recorder, whatever was stored before: the
    file published is the concatenation, in order, of all data delivered
    during the session, its size their total size; the chunks kept are the
    non-empty ones; start is enabled again, stop disabled, and the recorder
    idle. *)
Theorem session_publishes_recording (s : State) (during : list Blob) (last : Blob) :
  idle s ->
  exists s',
    run s (session during last) = Some s' /\
    recordedChunks s' = filter nonempty (during ++ [last]) /\
    downloadLink s'
      = {| href := Some (createObjectURL (List.concat (during ++ [last])));
           download := Some "pixelated-recording.webm"%string;
           display := Some "block"%string |} /\
    size (List.concat (during ++ [last])) = total_size (during ++ [last]) /\
    recordButton_disabled s' = false /\
    stopButton_disabled s' = true /\
    idle s'.
Proof.
  intros (r & Hr & Hst & Hp).
  unfold session. cbn [run step]. 
  set (s1 := recordButton_click s).
  assert (Hs1 : mediaRecorder s1 = Some {| state := recording; pending_stops := 0 |}
                /\ recordedChunks s1 = []).
  { unfold s1, recordButton_click, MediaRecorder_start.
    rewrite Hr, Hst, Hp. simpl. auto. }
  destruct Hs1 as [Hr1 Hc1].
  rewrite (run_deliver during s1 _ _ Hr1 eq_refl).
  destruct (deliver_frame during s1) as (D1 & D2 & D3 & D4 & D5).
  cbn [run step]. unfold stopButton_click. rewrite D1, Hr1.
  cbn [MediaRecorder_stop state pending_stops mediaRecorder take_pending].
  eexists. split; [reflexivity|].
  cbn [onstop recordedChunks downloadLink recordButton_disabled stopButton_disabled].
  rewrite ondataavailable_chunks.
  cbn [with_recorder recordedChunks].
  rewrite D5, Hc1. cbn [app]. rewrite <- filter_app.
  split; [reflexivity|]. split.
  - unfold new_Blob. now rewrite concat_nonempty.
  - split; [apply size_concat|].
    match goal with
    | |- context [ondataavailable last ?st] =>
        destruct (ondataavailable_frame last st) as (F1 & F2 & F3 & _)
    end.
    rewrite F2, F3. split; [reflexivity|]. split; [reflexivity|].
    eexists. unfold onstop. cbn [mediaRecorder]. rewrite F1.
    cbn [with_recorder mediaRecorder]. split; [reflexivity|]. split; reflexivity.
Qed.

Lemma session_publishes_recording_witness :
  exists s',
    run (onGranted (initial false true no_link))
        (session [[Byte.x01; Byte.x02]; []] [Byte.x03]) = Some s' /\
    recordedChunks s' = filter nonempty ([[Byte.x01; Byte.x02]; []] ++ [[Byte.x03]]) /\
    downloadLink s'
      = {| href := Some (createObjectURL
                           (List.concat ([[Byte.x01; Byte.x02]; []] ++ [[Byte.x03]])));
           download := Some "pixelated-recording.webm"%string;
           display := Some "block"%string |} /\
    size (List.concat ([[Byte.x01; Byte.x02]; []] ++ [[Byte.x03]]))
      = total_size ([[Byte.x01; Byte.x02]; []] ++ [[Byte.x03]]) /\
    recordButton_disabled s' = false /\
    stopButton_disabled s' = true /\
    idle s'.
Proof.
  apply (session_publishes_recording (onGranted (initial false true no_link))
           [[Byte.x01; Byte.x02]; []] [Byte.x03]).
  eexists. split; [reflexivity|]. split; reflexivity.
Defined.

(** X16.  A stop task always publishes the link, also when nothing was
    recorded: the blob it points to has the total size of the stored chunks
    and the last data, which may be zero. *)
Theorem stop_task_publishes (s s' : State) (last : Blob) :
  step s (StopTask last) = Some s' ->
  exists blob,
    downloadLink s'
      = {| href := Some (createObjectURL blob);
           download := Some "pixelated-recording.webm"%string;
           display := Some "block"%string |} /\
    size blob = total_size (recordedChunks s) + size last.
Proof.
  simpl. destruct (mediaRecorder s) as [r|]; [|discriminate].
  destruct (take_pending r) as [r'|]; [|discriminate].
  intros E. inversion E; subst; clear E.
  eexists. split; [reflexivity|].
  rewrite ondataavailable_chunks. cbn [with_recorder recordedChunks].
  unfold new_Blob. rewrite concat_app, size_app, concat_nonempty, size_concat.
  simpl. now rewrite app_nil_r.
Qed.

Lemma stop_task_publishes_witness :
  exists blob,
    downloadLink
      (onstop (ondataavailable []
         (with_recorder {| state := inactive; pending_stops := 0 |}
            (stopButton_click
               (recordButton_click (onGranted (initial false true no_link)))))))
      = {| href := Some (createObjectURL blob);
           download := Some "pixelated-recording.webm"%string;
           display := Some "block"%string |} /\
    size blob
      = total_size (recordedChunks
                      (stopButton_click
                         (recordButton_click (onGranted (initial false true no_link)))))
        + size [].
Proof.
  apply (stop_task_publishes
           (stopButton_click
              (recordButton_click (onGranted (initial false true no_link))))
           _ []).
  reflexivity.
Defined.

(** X17.  Clicking the same button twice in a row does no more than clicking
    it once. *)
Theorem clicks_are_idempotent (s : State) :
  recordButton_click (recordButton_click s) = recordButton_click s /\
  stopButton_click (stopButton_click s) = stopButton_click s.
Proof.
  unfold recordButton_click, stopButton_click, MediaRecorder_start, MediaRecorder_stop.
  destruct (mediaRecorder s) as [[[] p]|] eqn:E; simpl; rewrite ?E; split; reflexivity.
Qed.

End RecordingMore.
